(** * go-minhash: a shallow embedding of package [minhash] (minhash.go)

    The development follows the source file top to bottom:

    - the Go runtime notions the package leans on (64-bit [int] and
      [uint64], IEEE-754 binary64 [float64], dynamically typed
      [interface{}] values, panics);
    - the two standard-library routines it calls
      ([binary.LittleEndian.PutUint64] and [strconv.ParseUint]);
    - the package's own functions [defaultSignature], [toBytes],
      [stringIntToByte] and [Intersection];
    - the MinWise sketch behind the [MinHash] interface.

    Integers are [Z] with the wrap-around written out, bytes are [Z] in
    [0, 256), slices are lists, and [float64] is [spec_float] at
    precision 53 and maximal exponent 1024. *)

From Stdlib Require Import ZArith Lia String Ascii List Bool QArith Qround.
From Stdlib Require Import SpecFloat.
From stdpp Require Import base list gmap.

Local Open Scope Z_scope.

(** ** Go runtime: results and panics *)

Inductive panic : Type :=
| TypeAssertion   (* interface conversion: interface {} is T, not U *)
| IndexOutOfRange (* runtime error: index out of range *)
| MakeSliceLen.   (* runtime error: makeslice: len out of range *)

(** A call either returns normally or panics. *)
Inductive result (A : Type) : Type :=
| Ok (a : A)
| Panic (p : panic).

Arguments Ok {A} a.
Arguments Panic {A} p.

#[global] Instance result_ret : MRet result := fun A a => Ok a.

#[global] Instance result_bind : MBind result := fun A B k r =>
  match r with
  | Ok a => k a
  | Panic p => Panic p
  end.

(** ** Go runtime: fixed-width integers *)

(** [int] and [uint] are 64 bits wide (amd64, arm64). *)
Definition MaxUint64 : Z := 2 ^ 64 - 1.
Definition MaxInt64 : Z := 2 ^ 63 - 1.
Definition MinInt64 : Z := - 2 ^ 63.

(** Conversion to [uint64]: reduction modulo 2^64. *)
Definition uint64 (z : Z) : Z := z mod 2 ^ 64.

(** Conversion to [int64] (and [int]): two's complement wrap-around. *)
Definition int64 (z : Z) : Z := (z + 2 ^ 63) mod 2 ^ 64 - 2 ^ 63.

(** Conversion to [byte]: the low eight bits. *)
Definition byte (z : Z) : Z := Z.land z 255.

(** [size1 + size2] on [int]. *)
Definition int_add (a b : Z) : Z := int64 (a + b).

(** ** Go runtime: float64 *)

Module Float64.

Definition prec : Z := 53.
Definition emax : Z := 1024.

Definition float64 : Type := spec_float.

(** The values of type [float64]: canonical mantissa and exponent. *)
Definition valid (x : float64) : bool := valid_binary prec emax x.

Definition zero : float64 := S754_zero false.
Definition one : float64 := S754_finite false 4503599627370496 (-52).

Definition add (x y : float64) : float64 := SFadd prec emax x y.
Definition div (x y : float64) : float64 := SFdiv prec emax x y.
Definition eqb (x y : float64) : bool := SFeqb x y.
Definition ltb (x y : float64) : bool := SFltb x y.
Definition leb (x y : float64) : bool := SFleb x y.

(** [float64(i)] for an [int] [i]: round to nearest, ties to even. *)
Definition of_int (i : Z) : float64 := binary_normalize prec emax i 0 false.

(** [math.Floor]: the greatest integral value not above [x]; zeros,
    infinities and NaN are returned as they are. *)
Definition Floor (x : float64) : float64 :=
  match x with
  | S754_finite s m e =>
      if 0 <=? e then x
      else binary_normalize prec emax
             (cond_Zopp s (Z.pos m) / 2 ^ (- e)) 0 s
  | _ => x
  end.

(** [int(x)]: truncation toward zero.  When the truncated value does not
    fit (or [x] is NaN) Go leaves the result to the implementation; on
    amd64 CVTTSD2SQ yields the "integer indefinite" value [MinInt64]. *)
Definition to_int (x : float64) : Z :=
  match x with
  | S754_zero _ => 0
  | S754_finite s m e =>
      let t := cond_Zopp s (if 0 <=? e then Z.pos m * 2 ^ e
                            else Z.pos m / 2 ^ (- e)) in
      if (MinInt64 <=? t) && (t <=? MaxInt64) then t else MinInt64
  | _ => MinInt64
  end.

(** The rational number a finite float stands for (0 for the rest). *)
Definition to_Q (x : float64) : Q :=
  match x with
  | S754_finite s m e =>
      if 0 <=? e then inject_Z (cond_Zopp s (Z.pos m * 2 ^ e))
      else Qmake (cond_Zopp s (Z.pos m)) (Z.to_pos (2 ^ (- e)))
  | _ => 0%Q
  end.

(** The constant 2.0, the value of [(1.0 / 1.0) + 1]. *)
Definition two : float64 := S754_finite false 4503599627370496 (-51).

(** The shape of a correctly rounded result of sign [s] whose exact
    value has its leading bit at position [E] (that is, lies in
    [2^(E-1), 2^E)): an overflow to infinity, or a float with canonical
    exponent that stays in the binade [E] or is the power of two that
    opens the next one. *)
Definition rounded (s : bool) (E : Z) (r : float64) : Prop :=
  (1024 <= E /\ r = S754_infinity s)
  \/ exists (m : positive) (e : Z),
       r = S754_finite s m e
       /\ fexp prec emax (Z.pos (digits2_pos m) + e) = e
       /\ e <= 971
       /\ (Z.pos (digits2_pos m) + e = E
           \/ (Z.pos (digits2_pos m) + e = E + 1
               /\ Z.pos m = 2 ^ (Z.pos (digits2_pos m) - 1))).

End Float64.

(** ** Go runtime: strings, byte slices and interface values *)

(** The code of a character literal such as ['0']. *)
Definition ch (a : ascii) : Z := Z.of_N (N_of_ascii a).

(** [[]byte(s)]: a Go string is its sequence of bytes. *)
Definition bytes_of_string (s : string) : list Z :=
  map ch (list_ascii_of_string s).

(** [maxAlloc], the largest allocation the Go runtime accepts: [2^48]
    bytes on the 64-bit platforms modelled here (48 heap address
    bits). *)
Definition maxAlloc : Z := 2 ^ 48.

(** [make([]T, n)] for elements of [elemsize] bytes, with the check of
    [runtime.makeslice]: a negative length, or a size [elemsize * n]
    above [maxAlloc], panics with "makeslice: len out of range";
    otherwise the slice holds [n] zero values.  The product is taken
    in [Z], so a size that would overflow [uintptr] is above
    [maxAlloc] as well.  A request that passes
    this check and then cannot be served (out of memory) ends the
    process with a fatal error; that is not modelled. *)
Definition make (elemsize n : Z) : result (list Z) :=
  if (n <? 0) || (maxAlloc <? elemsize * n) then Panic MakeSliceLen
  else Ok (replicate (Z.to_nat n) 0).

(** The integer types a dynamic value may carry. *)
Inductive kind : Type :=
| Uint | Uint8 | Uint16 | Uint32 | Uint64
| Int | Int8 | Int16 | Int32 | Int64.

(** A value of type [interface{}] together with its dynamic type.
    [VOther] stands for every dynamic type not listed (nil, bool,
    float64, structs, ...). *)
Inductive value : Type :=
| VBytes (b : list Z)
| VString (s : string)
| VInteger (k : kind) (n : Z)
| VOther.

(** The type assertion [t.(uint64)]. *)
Definition assert_uint64 (t : value) : result Z :=
  match t with
  | VInteger Uint64 n => Ok n
  | _ => Panic TypeAssertion
  end.

(** The type assertion [t.(int64)]. *)
Definition assert_int64 (t : value) : result Z :=
  match t with
  | VInteger Int64 n => Ok n
  | _ => Panic TypeAssertion
  end.

(** ** Package encoding/binary *)

Module Binary.

(** [binary.LittleEndian.PutUint64(b, v)]: the bounds check [_ = b[7]]
    followed by the eight stores [b[i] = byte(v >> (8*i))]. *)
Definition PutUint64 (b : list Z) (v : Z) : result (list Z) :=
  if (length b <? 8)%nat then Panic IndexOutOfRange
  else
    let b := <[0%nat := byte v]> b in
    let b := <[1%nat := byte (Z.shiftr v 8)]> b in
    let b := <[2%nat := byte (Z.shiftr v 16)]> b in
    let b := <[3%nat := byte (Z.shiftr v 24)]> b in
    let b := <[4%nat := byte (Z.shiftr v 32)]> b in
    let b := <[5%nat := byte (Z.shiftr v 40)]> b in
    let b := <[6%nat := byte (Z.shiftr v 48)]> b in
    let b := <[7%nat := byte (Z.shiftr v 56)]> b in
    Ok b.

(** [binary.LittleEndian.Uint64(b)], the inverse reading, used to say
    what "the little-endian encoding of [v]" means. *)
Definition Uint64 (b : list Z) : option Z :=
  match b with
  | b0 :: b1 :: b2 :: b3 :: b4 :: b5 :: b6 :: b7 :: _ =>
      Some (b0 + 2 ^ 8 * b1 + 2 ^ 16 * b2 + 2 ^ 24 * b3
            + 2 ^ 32 * b4 + 2 ^ 40 * b5 + 2 ^ 48 * b6 + 2 ^ 56 * b7)
  | _ => None
  end.

End Binary.

(** ** Package strconv *)

Module Strconv.

Inductive error : Type :=
| ErrSyntax
| ErrRange
| ErrBase
| ErrBitSize.

(** [lower(c)]: [c | ('x' - 'X')]. *)
Definition lower (c : Z) : Z := Z.lor c 32.

(** The loop of [underscoreOK]; [i] is the state character and the
    result is the final state, or [None] for an early [return false]. *)
Fixpoint underscoreOK_loop (hex : bool) (s : list Z) (i : Z) : option Z :=
  match s with
  | [] => Some i
  | c :: s' =>
      if ((ch "0" <=? c) && (c <=? ch "9"))
         || (hex && (ch "a" <=? lower c) && (lower c <=? ch "f"))
      then underscoreOK_loop hex s' (ch "0")
      else if c =? ch "_" then
        if negb (i =? ch "0") then None
        else underscoreOK_loop hex s' (ch "_")
      else if i =? ch "_" then None
      else underscoreOK_loop hex s' (ch "!")
  end.

(** [underscoreOK(s)]: underscores only between digits or between a
    base prefix and a digit. *)
Definition underscoreOK (s : list Z) : bool :=
  let s :=
    match s with
    | c :: s' => if (c =? ch "-") || (c =? ch "+") then s' else s
    | [] => s
    end in
  let '(i, hex, s) :=
    match s with
    | c0 :: c1 :: s' =>
        if (c0 =? ch "0")
           && ((lower c1 =? ch "b") || (lower c1 =? ch "o")
               || (lower c1 =? ch "x"))
        then (ch "0", lower c1 =? ch "x", s')
        else (ch "^", false, s)
    | _ => (ch "^", false, s)
    end in
  match underscoreOK_loop hex s i with
  | Some i => negb (i =? ch "_")
  | None => false
  end.

(** The digit loop of [ParseUint]: the accumulated value and whether an
    underscore was seen, or the value and error of an early return. *)
Fixpoint digits_loop (base : Z) (base0 : bool) (cutoff maxVal : Z)
  (s : list Z) (n : Z) (underscores : bool) : (Z * bool) + (Z * error) :=
  match s with
  | [] => inl (n, underscores)
  | c :: s' =>
      if (c =? ch "_") && base0
      then digits_loop base base0 cutoff maxVal s' n true
      else
        let d :=
          if (ch "0" <=? c) && (c <=? ch "9") then Some (byte (c - ch "0"))
          else if (ch "a" <=? lower c) && (lower c <=? ch "z")
               then Some (byte (lower c - ch "a" + 10))
               else None in
        match d with
        | None => inr (0, ErrSyntax)
        | Some d =>
            if byte base <=? d then inr (0, ErrSyntax)
            else if cutoff <=? n then inr (maxVal, ErrRange)
            else
              let n := uint64 (n * uint64 base) in
              let n1 := uint64 (n + uint64 d) in
              if (n1 <? n) || (maxVal <? n1) then inr (maxVal, ErrRange)
              else digits_loop base base0 cutoff maxVal s' n1 underscores
        end
  end.

(** [strconv.ParseUint(s, base, bitSize)] (Go 1.13 and later: base
    prefixes 0b, 0o, 0x, a bare leading 0 for octal, and underscores
    when [base] is 0).  The string is given by its bytes. *)
Definition ParseUint (s : list Z) (base bitSize : Z) : Z * option error :=
  match s with
  | [] => (0, Some ErrSyntax)
  | c0 :: _ =>
      let base0 := base =? 0 in
      let s0 := s in
      let based : option (Z * list Z) :=
        if (2 <=? base) && (base <=? 36) then Some (base, s)
        else if base =? 0 then
          if c0 =? ch "0" then
            match s with
            | _ :: c1 :: (_ :: _) as rest =>
                if lower c1 =? ch "b" then Some (2, rest)
                else if lower c1 =? ch "o" then Some (8, rest)
                else if lower c1 =? ch "x" then Some (16, rest)
                else Some (8, tl s)
            | _ => Some (8, tl s)
            end
          else Some (10, s)
        else None in
      match based with
      | None => (0, Some ErrBase)
      | Some (base, s) =>
          if (bitSize <? 0) || (64 <? bitSize) then (0, Some ErrBitSize)
          else
            let bitSize := if bitSize =? 0 then 64 else bitSize in
            let cutoff := MaxUint64 / base + 1 in
            let maxVal := uint64 (Z.shiftl 1 bitSize - 1) in
            match digits_loop base base0 cutoff maxVal s 0 false with
            | inr (n, e) => (n, Some e)
            | inl (n, underscores) =>
                if underscores && negb (underscoreOK s0)
                then (0, Some ErrSyntax)
                else (n, None)
            end
      end
  end.

(** Numerals, to state what [ParseUint] reads: the character that
    writes the digit [d] (['0'..'9'], then ['a'..'z']) and the value of
    a digit sequence, most significant digit first. *)
Definition digit_char (d : Z) : Z :=
  if d <? 10 then ch "0" + d else ch "a" + (d - 10).

Definition digits_value (base : Z) (ds : list Z) : Z :=
  foldl (fun acc d => acc * base + d) 0 ds.

(** The base and the digits [ParseUint] settles on when its [base]
    argument is 0: the part of [ParseUint] that looks for a prefix. *)
Definition base_prefix (s : list Z) : Z * list Z :=
  match s with
  | c0 :: rest0 =>
      if c0 =? ch "0" then
        match rest0 with
        | c1 :: (_ :: _) as rest =>
            if lower c1 =? ch "b" then (2, rest)
            else if lower c1 =? ch "o" then (8, rest)
            else if lower c1 =? ch "x" then (16, rest)
            else (8, rest0)
        | _ => (8, rest0)
        end
      else (10, s)
  | [] => (10, s)
  end.

(** A character the digit loop refuses whatever the base: no digit, no
    letter (in either case) and no underscore. *)
Definition not_numeric (c : Z) : Prop :=
  c <> ch "_" /\ ~ (ch "0" <= c <= ch "9") /\ ~ (ch "a" <= lower c <= ch "z").

End Strconv.

(** ** Package minhash *)

Module Minhash.

Import Float64.

(** [const infinity uint64 = math.MaxUint64] *)
Definition infinity : Z := MaxUint64.

(** [const MaxUint uint = ^uint(0)] *)
Definition MaxUint : Z := uint64 (Z.lnot 0).

(** [const MaxInt int = int(MaxUint >> 1)] *)
Definition MaxInt : Z := int64 (Z.shiftr MaxUint 1).

(** [type Signature []uint64] *)
Abbreviation Signature := (list Z).

(** [func defaultSignature(size int) Signature]: [make] of [size]
    8-byte slots, then the loop [for i := range s { s[i] = infinity }]. *)
Definition defaultSignature (size : Z) : result Signature :=
  s ← make 8 size;
  mret (foldl (fun (s : Signature) (i : nat) => <[i := infinity]> s) s
              (seq 0 (length s))).

(** [func toBytes(x interface{}) []byte].  In a case that lists several
    types, [t] keeps the interface type of [x], so [t.(uint64)] and
    [t.(int64)] are run-time type assertions. *)
Definition toBytes (x : value) : result (list Z) :=
  b ← make 1 8;
  match x with
  | VBytes t => Ok t
  | VString t => Ok (bytes_of_string t)
  | VInteger (Uint | Uint16 | Uint32 | Uint64) _ =>
      t ← assert_uint64 x; Binary.PutUint64 b t
  | VInteger (Int | Int16 | Int32 | Int64) _ =>
      t ← assert_int64 x; Binary.PutUint64 b (uint64 t)
  | _ => Ok b
  end.

(** [func stringIntToByte(s string) []byte]; the [log.Println] call of
    the error branch writes to the log and does not affect the result. *)
Definition stringIntToByte (s : string) : result (list Z) :=
  let '(n, err) := Strconv.ParseUint (bytes_of_string s) 0 64 in
  match err with
  | Some _ => Ok (bytes_of_string s)
  | None => toBytes (VInteger Uint64 n)
  end.

(** [func Intersection(js float64, size1, size2 int) int] *)
Definition Intersection (js : float64) (size1 size2 : Z) : Z :=
  if eqb js zero then 0
  else to_int (Floor (div (of_int (int_add size1 size2))
                          (add (div one js) one))).

(** The formula of the doc comment, [(n + m) / ((1/J) + 1)], read over
    the rationals and floored: what [Intersection] would return if its
    arithmetic were exact. *)
Definition Intersection_spec (js : Q) (size1 size2 : Z) : Z :=
  Qfloor (inject_Z (size1 + size2) / (1 / js + 1))%Q.

End Minhash.

(** ** The MinWise sketch *)

Module MinWise.

Import Minhash.

(** Modelled from the spec: the MinWise variant of the [MinHash]
    interface (its constructor, [Push] and [Merge]) is declared by the
    interface in minhash.go but implemented in a file that is not among
    the sources.  The definitions below follow sections 4.1 and 4.2 of
    the specification: elements arrive as byte sequences, slot [i]
    (counted from 1) of the family is [h1(x) + i * h2(x)] in wrapping
    64-bit arithmetic, ingestion and merging take slot-wise minima, and
    merging signatures of different lengths is an incompatibility
    error. *)
Record HashFamily : Type := {
  h1 : list Z -> Z;
  h2 : list Z -> Z
}.

(** Modelled from the spec: the error taxonomy of section 7. *)
Inductive error : Type :=
| Configuration
| Incompatibility.

(** Modelled from the spec: an operation completes or reports one of
    these errors. *)
Inductive attempt (A : Type) : Type :=
| Success (a : A)
| Failure (e : error).

Arguments Success {A} a.
Arguments Failure {A} e.

(** Modelled from the spec: a sketch owns one signature and refers to
    one hash family. *)
Record MinWise : Type := {
  family : HashFamily;
  minimums : Signature
}.

(** Modelled from the spec: [slot_i(x) = h1(x) + i * h2(x)], wrapping. *)
Definition slot (H : HashFamily) (i : Z) (x : list Z) : Z :=
  uint64 (h1 H x + i * h2 H x).

(** Modelled from the spec: construction of an empty sketch, every
    slot at the sentinel; a non-positive signature length is a
    configuration error. *)
Definition NewMinWise (H : HashFamily) (size : Z) : attempt MinWise :=
  if size <=? 0 then Failure Configuration
  else Success {| family := H;
                  minimums := replicate (Z.to_nat size) infinity |}.

(** Modelled from the spec: [Ingest]; list position [j] holds slot
    [j + 1]. *)
Definition Ingest (m : MinWise) (x : list Z) : MinWise :=
  {| family := family m;
     minimums := imap (fun (j : nat) (v : Z) =>
                         Z.min v (slot (family m) (Z.of_nat j + 1) x))
                      (minimums m) |}.

(** Modelled from the spec: [Merge]. *)
Definition Merge (m other : MinWise) : attempt MinWise :=
  if (length (minimums m) =? length (minimums other))%nat
  then Success {| family := family m;
                  minimums := zip_with Z.min (minimums m) (minimums other) |}
  else Failure Incompatibility.

(** Modelled from the spec: streaming ingestion of a whole element
    stream into a freshly constructed sketch. *)
Definition Sketch (H : HashFamily) (size : Z) (stream : list (list Z))
  : attempt MinWise :=
  match NewMinWise H size with
  | Success m => Success (foldl Ingest m stream)
  | Failure e => Failure e
  end.

(** The value slot [j + 1] reaches from [v] after the stream [l]. *)
Definition least (H : HashFamily) (j : nat) (l : list (list Z)) (v : Z) : Z :=
  foldl (fun acc x => Z.min acc (slot H (Z.of_nat j + 1) x)) v l.

End MinWise.

(** * Properties *)

Import Minhash.

(** ** [defaultSignature] *)

Section DefaultSignature.

(** The loop invariant of [for i := range s { s[i] = v }]: after [n]
    iterations the first [n] slots hold [v], the rest are untouched. *)
Lemma fill_loop_prefix (v : Z) (s : list Z) (n : nat) :
  (n <= length s)%nat ->
  foldl (fun (s : list Z) (i : nat) => <[i := v]> s) s (seq 0 n)
  = replicate n v ++ drop n s.
Proof.
  induction n as [|n IH]; intros Hn.
  - simpl. by rewrite drop_0.
  - rewrite seq_S, foldl_app, IH by lia. cbn [foldl Nat.add].
    destruct (lookup_lt_is_Some_2 s n) as [x Hx]; [lia|].
    rewrite (drop_S _ _ _ Hx).
    rewrite insert_app_r_alt by (rewrite length_replicate; lia).
    rewrite length_replicate, Nat.sub_diag.
    rewrite (replicate_S_end n v), <- app_assoc. reflexivity.
Qed.

Lemma fill_loop_all (v : Z) (s : list Z) :
  foldl (fun (s : list Z) (i : nat) => <[i := v]> s) s (seq 0 (length s))
  = replicate (length s) v.
Proof.
  rewrite fill_loop_prefix by lia.
  rewrite drop_all. apply app_nil_r.
Qed.

Lemma defaultSignature_replicate (size : Z) :
  0 <= size <= 2 ^ 45 ->
  defaultSignature size = Ok (replicate (Z.to_nat size) infinity).
Proof.
  intros Hsize. unfold defaultSignature, make, maxAlloc.
  destruct (Z.ltb_spec size 0); [lia|].
  destruct (Z.ltb_spec (2 ^ 48) (8 * size)); [lia|].
  cbn. rewrite fill_loop_all, length_replicate. reflexivity.
Qed.

(** Beyond [maxAlloc] the [make] call panics before the loop runs. *)
Lemma defaultSignature_too_large (size : Z) :
  2 ^ 45 < size -> defaultSignature size = Panic MakeSliceLen.
Proof.
  intros Hsize. unfold defaultSignature, make, maxAlloc.
  destruct (Z.ltb_spec size 0); [reflexivity|].
  destruct (Z.ltb_spec (2 ^ 48) (8 * size)); [reflexivity | lia].
Qed.

End DefaultSignature.

(** C7, as the claim states it, fails for large sizes: [2^46] slots of
    8 bytes exceed [maxAlloc], and [make] panics with "makeslice: len
    out of range". *)
Lemma defaultSignature_large_size_panics :
  0 < 2 ^ 46
  /\ defaultSignature (2 ^ 46) = Panic MakeSliceLen
  /\ ~ (exists s : Signature, defaultSignature (2 ^ 46) = Ok s).
Proof.
  split; [lia|].
  assert (H : defaultSignature (2 ^ 46) = Panic MakeSliceLen)
    by (apply defaultSignature_too_large; lia).
  split; [exact H|]. intros [s Hs]. rewrite H in Hs. discriminate Hs.
Qed.

(** C7 (amended): for every size [k] with [0 < k <= 2^45], that is,
    whose [8 * k] bytes [make] accepts, [defaultSignature k] returns a
    signature of length [k] in which every slot holds the maximal
    unsigned 64-bit value [2^64 - 1]. *)
Theorem defaultSignature_all_infinity (k : Z) :
  0 < k <= 2 ^ 45 ->
  exists s : Signature,
    defaultSignature k = Ok s
    /\ Z.of_nat (length s) = k
    /\ Forall (fun v => v = 2 ^ 64 - 1) s.
Proof.
  intros Hk. exists (replicate (Z.to_nat k) infinity).
  split; [apply defaultSignature_replicate; lia|].
  split; [rewrite length_replicate; lia|].
  apply Forall_replicate. reflexivity.
Qed.

Lemma defaultSignature_all_infinity_witness :
  0 < 3 <= 2 ^ 45 /\
  exists s : Signature,
    defaultSignature 3 = Ok s
    /\ Z.of_nat (length s) = 3
    /\ Forall (fun v => v = 2 ^ 64 - 1) s.
Proof.
  split; [lia | apply (defaultSignature_all_infinity 3); lia].
Defined.

(** ** [toBytes] *)

(** C9: on a byte slice [toBytes] returns the slice as it is, whatever
    its length, so its result need not be eight bytes long. *)
Theorem toBytes_bytes_unchanged :
  (forall b : list Z, toBytes (VBytes b) = Ok b)
  /\ (exists (b r : list Z), toBytes (VBytes b) = Ok r /\ length r <> 8%nat).
Proof.
  split; [reflexivity|].
  exists [1; 2; 3], [1; 2; 3]. split; [reflexivity | discriminate].
Qed.

(** C8 (the code departs from it): of the eight integer kinds listed in
    the type switch only [uint64] and [int64] pass the type assertion
    of their case; the six others panic.  For instance [toBytes(uint(5))]
    panics instead of returning [5 0 0 0 0 0 0 0]. *)
Theorem toBytes_listed_kinds_panic (n : Z) :
  toBytes (VInteger Uint 5) = Panic TypeAssertion
  /\ toBytes (VInteger Uint n) = Panic TypeAssertion
  /\ toBytes (VInteger Uint16 n) = Panic TypeAssertion
  /\ toBytes (VInteger Uint32 n) = Panic TypeAssertion
  /\ toBytes (VInteger Int n) = Panic TypeAssertion
  /\ toBytes (VInteger Int16 n) = Panic TypeAssertion
  /\ toBytes (VInteger Int32 n) = Panic TypeAssertion.
Proof. repeat split; reflexivity. Qed.

Section LittleEndian.

Lemma byte_mod (z : Z) : byte z = z mod 2 ^ 8.
Proof. unfold byte. change 255 with (Z.ones 8). apply Z.land_ones. lia. Qed.

Lemma shiftr_byte_step (v k k' : Z) :
  0 <= k -> k' = k + 8 ->
  Z.shiftr v k = 2 ^ 8 * Z.shiftr v k' + byte (Z.shiftr v k).
Proof.
  intros Hk ->. rewrite byte_mod, !Z.shiftr_div_pow2 by lia.
  rewrite Z.pow_add_r, <- Z.div_div by lia.
  apply Z.div_mod. lia.
Qed.

(** Reading back what [PutUint64] wrote gives the value. *)
Lemma PutUint64_Uint64 (b : list Z) (v : Z) :
  length b = 8%nat -> 0 <= v < 2 ^ 64 ->
  exists b', Binary.PutUint64 b v = Ok b'
             /\ length b' = 8%nat
             /\ Binary.Uint64 b' = Some v.
Proof.
  intros Hb Hv.
  do 9 (destruct b as [|? b]; try discriminate).
  eexists. split; [reflexivity|]. split; [reflexivity|].
  cbn -[byte Z.shiftr Z.pow Z.mul Z.add]. f_equal.
  pose proof (shiftr_byte_step v 0 8 ltac:(lia) ltac:(lia)) as H0.
  pose proof (shiftr_byte_step v 8 16 ltac:(lia) ltac:(lia)) as H1.
  pose proof (shiftr_byte_step v 16 24 ltac:(lia) ltac:(lia)) as H2.
  pose proof (shiftr_byte_step v 24 32 ltac:(lia) ltac:(lia)) as H3.
  pose proof (shiftr_byte_step v 32 40 ltac:(lia) ltac:(lia)) as H4.
  pose proof (shiftr_byte_step v 40 48 ltac:(lia) ltac:(lia)) as H5.
  pose proof (shiftr_byte_step v 48 56 ltac:(lia) ltac:(lia)) as H6.
  pose proof (shiftr_byte_step v 56 64 ltac:(lia) ltac:(lia)) as H7.
  assert (H8 : Z.shiftr v 64 = 0).
  { rewrite Z.shiftr_div_pow2 by lia. apply Z.div_small. lia. }
  rewrite Z.shiftr_0_r in H0.
  lia.
Qed.

(** [toBytes] on a [uint64] is the eight-byte little-endian encoding. *)
Lemma toBytes_uint64 (n : Z) :
  0 <= n < 2 ^ 64 ->
  exists b, toBytes (VInteger Uint64 n) = Ok b
            /\ length b = 8%nat
            /\ Binary.Uint64 b = Some n.
Proof.
  intros Hn. unfold toBytes. cbn.
  apply (PutUint64_Uint64 [0; 0; 0; 0; 0; 0; 0; 0] n); [reflexivity | lia].
Qed.

Lemma byte_range (z : Z) : 0 <= byte z < 256.
Proof. rewrite byte_mod. apply Z.mod_pos_bound. lia. Qed.

(** The eight bytes [PutUint64] writes into an eight-byte buffer. *)
Lemma toBytes_uint64_bytes (n : Z) :
  toBytes (VInteger Uint64 n)
  = Ok [byte n; byte (Z.shiftr n 8); byte (Z.shiftr n 16);
        byte (Z.shiftr n 24); byte (Z.shiftr n 32); byte (Z.shiftr n 40);
        byte (Z.shiftr n 48); byte (Z.shiftr n 56)].
Proof. reflexivity. Qed.

(** The result on a [uint64] is pinned down: eight bytes, each below
    256, that read back to the value. *)
Lemma toBytes_uint64_encoding (n : Z) :
  0 <= n < 2 ^ 64 ->
  exists b, toBytes (VInteger Uint64 n) = Ok b
            /\ length b = 8%nat
            /\ Forall (fun c => 0 <= c < 256) b
            /\ Binary.Uint64 b = Some n.
Proof.
  intros Hn. destruct (toBytes_uint64 n Hn) as (b & Hb & Hlen & Hdec).
  exists b. split; [exact Hb|]. split; [exact Hlen|]. split; [|exact Hdec].
  rewrite toBytes_uint64_bytes in Hb. injection Hb as <-.
  repeat (apply Forall_cons; split; [apply byte_range|]). apply Forall_nil.
  exact I.
Qed.

(** [toBytes] on an [int64] encodes its two's complement image. *)
Lemma toBytes_int64 (n : Z) :
  exists b, toBytes (VInteger Int64 n) = Ok b
            /\ length b = 8%nat
            /\ Binary.Uint64 b = Some (uint64 n).
Proof.
  unfold toBytes. cbn.
  apply (PutUint64_Uint64 [0; 0; 0; 0; 0; 0; 0; 0] (uint64 n));
    [reflexivity | unfold uint64; apply Z.mod_pos_bound; lia].
Qed.

End LittleEndian.

(** ** [stringIntToByte] *)

Section ParseUint.

Import Strconv.

Lemma uint64_range (z : Z) : 0 <= uint64 z < 2 ^ 64.
Proof. unfold uint64. apply Z.mod_pos_bound. lia. Qed.

(** The accumulator of the digit loop stays a [uint64]. *)
Lemma digits_loop_range base base0 cutoff maxVal s :
  forall n u n' u',
    0 <= n < 2 ^ 64 ->
    digits_loop base base0 cutoff maxVal s n u = inl (n', u') ->
    0 <= n' < 2 ^ 64.
Proof.
  induction s as [|c s IH]; intros n u n' u' Hn Hloop; simpl in Hloop.
  - injection Hloop as <- <-. exact Hn.
  - destruct ((c =? ch "_") && base0); [by eapply IH|].
    destruct (if (ch "0" <=? c) && (c <=? ch "9")
              then Some (byte (c - ch "0"))
              else if (ch "a" <=? lower c) && (lower c <=? ch "z")
                   then Some (byte (lower c - ch "a" + 10))
                   else None) as [d|]; [|discriminate].
    destruct (byte base <=? d); [discriminate|].
    destruct (cutoff <=? n); [discriminate|].
    destruct (_ || _); [discriminate|].
    eapply IH; [|exact Hloop]. apply uint64_range.
Qed.

Lemma ParseUint_range (s : list Z) (base bitSize n : Z) :
  ParseUint s base bitSize = (n, None) -> 0 <= n < 2 ^ 64.
Proof.
  unfold ParseUint. destruct s as [|c0 s']; [discriminate|].
  destruct (if (2 <=? base) && (base <=? 36) then _ else _)
    as [[b s'']|]; [|discriminate].
  destruct (_ || _); [discriminate|].
  destruct (digits_loop _ _ _ _ _ _ _) as [[n0 u]|[n0 e]] eqn:Hloop;
    [|discriminate].
  destruct (u && _); [discriminate|].
  intros [= <-]. eapply digits_loop_range; [|exact Hloop]. lia.
Qed.

End ParseUint.

(** C5: [stringIntToByte] returns normally on every string.  When
    [strconv.ParseUint(s, 0, 64)] succeeds with value [n] the result is
    the eight-byte little-endian encoding of [n]: eight bytes, each
    below 256, that read back to [n]; when it reports an error the
    result is the bytes of [s] themselves. *)
Theorem stringIntToByte_total (s : string) :
  exists b : list Z,
    stringIntToByte s = Ok b
    /\ match Strconv.ParseUint (bytes_of_string s) 0 64 with
       | (n, None) =>
           length b = 8%nat
           /\ Forall (fun c => 0 <= c < 256) b
           /\ Binary.Uint64 b = Some n
       | (_, Some _) => b = bytes_of_string s
       end.
Proof.
  unfold stringIntToByte.
  destruct (Strconv.ParseUint (bytes_of_string s) 0 64) as [n [e|]] eqn:Hp.
  - eexists. split; reflexivity.
  - destruct (toBytes_uint64_encoding n) as (b & Hb & Hlen & Hrange & Hdec).
    { eapply ParseUint_range. exact Hp. }
    exists b. auto.
Qed.

(** C6, as the claim states it, fails: ["12"] and ["012"] do not encode
    to the same bytes. *)
Lemma stringIntToByte_12_012_differ :
  ~ (stringIntToByte "12" = stringIntToByte "012"
     /\ stringIntToByte "12x" <> stringIntToByte "12"
     /\ stringIntToByte "12x" <> stringIntToByte "012").
Proof. intros [H _]. vm_compute in H. discriminate H. Qed.

(** C6 (amended): with base 0 a leading ["0"] selects octal, so ["12"]
    encodes twelve and ["012"] encodes ten; ["12x"] does not parse and
    is returned as its three text bytes.  The three results are pairwise
    different. *)
Theorem stringIntToByte_12_012_12x :
  stringIntToByte "12" = Ok [12; 0; 0; 0; 0; 0; 0; 0]
  /\ stringIntToByte "012" = Ok [10; 0; 0; 0; 0; 0; 0; 0]
  /\ stringIntToByte "12x" = Ok [49; 50; 120]
  /\ stringIntToByte "12" <> stringIntToByte "012"
  /\ stringIntToByte "12x" <> stringIntToByte "12"
  /\ stringIntToByte "12x" <> stringIntToByte "012".
Proof.
  repeat split; try (vm_compute; reflexivity);
    intros H; vm_compute in H; discriminate H.
Qed.

(** ** The MinWise sketch: merging and the union of streams *)

Section MergeUnion.

Import MinWise.

Variable H : HashFamily.

Lemma least_below (j : nat) (l : list (list Z)) :
  forall v, least H j l v <= v
            /\ forall x, x ∈ l -> least H j l v <= slot H (Z.of_nat j + 1) x.
Proof.
  unfold least. induction l as [|y l IH]; intros v; simpl.
  - split; [lia|]. intros x Hx. by apply elem_of_nil in Hx.
  - destruct (IH (Z.min v (slot H (Z.of_nat j + 1) y))) as [IH1 IH2].
    split; [lia|]. intros x Hx.
    apply elem_of_cons in Hx as [->|Hx]; [lia | by apply IH2].
Qed.

Lemma least_attained (j : nat) (l : list (list Z)) :
  forall v, least H j l v = v
            \/ exists x, x ∈ l /\ least H j l v = slot H (Z.of_nat j + 1) x.
Proof.
  unfold least. induction l as [|y l IH]; intros v; simpl.
  - by left.
  - destruct (IH (Z.min v (slot H (Z.of_nat j + 1) y))) as [IH1|(x & Hx & IH1)].
    + rewrite IH1.
      destruct (Z.min_spec v (slot H (Z.of_nat j + 1) y)) as [[_ ->]|[_ ->]].
      * by left.
      * right. exists y. split; [apply list_elem_of_here | reflexivity].
    + right. exists x. split; [by apply list_elem_of_further | exact IH1].
Qed.

(** The slot minimum depends on the stream only through its elements. *)
Lemma least_union (j : nat) (la lb lu : list (list Z)) (v : Z) :
  (forall x, x ∈ lu <-> x ∈ la \/ x ∈ lb) ->
  Z.min (least H j la v) (least H j lb v) = least H j lu v.
Proof.
  intros Hu.
  destruct (least_below j la v) as [Ha1 Ha2].
  destruct (least_below j lb v) as [Hb1 Hb2].
  destruct (least_below j lu v) as [Hu1 Hu2].
  assert (Hle : least H j lu v <= Z.min (least H j la v) (least H j lb v)).
  { apply Z.min_glb.
    - destruct (least_attained j la v) as [->|(x & Hx & ->)]; [exact Hu1|].
      apply Hu2, Hu. by left.
    - destruct (least_attained j lb v) as [->|(x & Hx & ->)]; [exact Hu1|].
      apply Hu2, Hu. by right. }
  assert (Hge : Z.min (least H j la v) (least H j lb v) <= least H j lu v).
  { destruct (least_attained j lu v) as [->|(x & Hx & ->)]; [lia|].
    apply Hu in Hx as [Hx|Hx].
    - specialize (Ha2 x Hx). lia.
    - specialize (Hb2 x Hx). lia. }
  lia.
Qed.

Lemma Ingest_family (m : MinWise) (l : list (list Z)) :
  family (foldl Ingest m l) = family m.
Proof.
  revert m. induction l as [|x l IH]; intros m; simpl; [reflexivity|].
  by rewrite IH.
Qed.

Lemma Ingest_lookup (l : list (list Z)) :
  forall (m : MinWise) (j : nat),
    family m = H ->
    minimums (foldl Ingest m l) !! j = least H j l <$> minimums m !! j.
Proof.
  induction l as [|x l IH]; intros m j Hm; simpl.
  - unfold least. simpl. by destruct (minimums m !! j).
  - rewrite IH by exact Hm. unfold Ingest at 1. simpl.
    rewrite list_lookup_imap. rewrite Hm.
    by destruct (minimums m !! j).
Qed.

Lemma Ingest_length (l : list (list Z)) (m : MinWise) :
  length (minimums (foldl Ingest m l)) = length (minimums m).
Proof.
  revert m. induction l as [|x l IH]; intros m; simpl; [reflexivity|].
  rewrite IH. unfold Ingest. simpl. apply length_imap.
Qed.

(** Merging two sketches grown from the same empty sketch gives the
    sketch of any stream that enumerates the union. *)
Lemma Merge_foldl_Ingest (m : MinWise) (la lb lu : list (list Z)) :
  family m = H ->
  (forall x, x ∈ lu <-> x ∈ la \/ x ∈ lb) ->
  Merge (foldl Ingest m la) (foldl Ingest m lb)
  = Success (foldl Ingest m lu).
Proof.
  intros Hm Hu. unfold Merge.
  rewrite !Ingest_length, Nat.eqb_refl. f_equal.
  destruct (foldl Ingest m lu) as [fu su] eqn:Eu.
  assert (Hfu : fu = family m).
  { change fu with (family {| family := fu; minimums := su |}).
    rewrite <- Eu. apply Ingest_family. }
  rewrite Ingest_family, Hfu. f_equal.
  apply list_eq. intros j.
  change su with (minimums {| family := fu; minimums := su |}).
  rewrite <- Eu, lookup_zip_with, !Ingest_lookup by exact Hm.
  destruct (minimums m !! j) as [v|]; simpl; [|reflexivity].
  f_equal. by apply least_union.
Qed.

Lemma Sketch_success (k : Z) (l : list (list Z)) :
  0 < k ->
  Sketch H k l
  = Success (foldl Ingest
               {| family := H;
                  minimums := replicate (Z.to_nat k) infinity |} l).
Proof.
  intros Hk. unfold Sketch, NewMinWise.
  destruct (k <=? 0) eqn:E; [lia | reflexivity].
Qed.

Lemma Merge_Sketch_union (k : Z) (la lb lu : list (list Z)) :
  0 < k ->
  (forall x, x ∈ lu <-> x ∈ la \/ x ∈ lb) ->
  exists a b u : MinWise,
    Sketch H k la = Success a
    /\ Sketch H k lb = Success b
    /\ Sketch H k lu = Success u
    /\ Merge a b = Success u.
Proof.
  intros Hk Hu. do 3 eexists.
  rewrite !Sketch_success by exact Hk.
  repeat split. by apply Merge_foldl_Ingest.
Qed.

(** The same for finite sets, each streamed in the order of
    [elements]. *)
Lemma Merge_Sketch_gset (k : Z) (A B : gset (list Z)) :
  0 < k ->
  exists a b u : MinWise,
    Sketch H k (elements A) = Success a
    /\ Sketch H k (elements B) = Success b
    /\ Sketch H k (elements (A ∪ B)) = Success u
    /\ Merge a b = Success u.
Proof.
  intros Hk. apply Merge_Sketch_union; [exact Hk|].
  intros x. rewrite !elem_of_elements. apply elem_of_union.
Qed.

End MergeUnion.

(** C1: for one hash family and one signature length [k], merging the
    sketch of a stream [la] with the sketch of a stream [lb] yields
    exactly the sketch that streaming ingestion produces on any stream
    [lu] whose elements are those of [la] together with those of [lb]
    (an enumeration of the union, in any order, repetitions allowed). *)
Theorem Merge_is_sketch_of_union
  (H : MinWise.HashFamily) (k : Z) (la lb lu : list (list Z)) :
  0 < k ->
  (forall x, x ∈ lu <-> x ∈ la \/ x ∈ lb) ->
  exists a b u : MinWise.MinWise,
    MinWise.Sketch H k la = MinWise.Success a
    /\ MinWise.Sketch H k lb = MinWise.Success b
    /\ MinWise.Sketch H k lu = MinWise.Success u
    /\ MinWise.Merge a b = MinWise.Success u
    /\ Z.of_nat (length (MinWise.minimums u)) = k.
Proof.
  intros Hk Hu.
  destruct (Merge_Sketch_union H k la lb lu Hk Hu) as (a & b & u & Ha & Hb & Hu' & Hm).
  exists a, b, u. repeat split; try assumption.
  rewrite Sketch_success in Hu' by exact Hk.
  injection Hu' as <-. rewrite Ingest_length. simpl.
  rewrite length_replicate. lia.
Qed.

Lemma Merge_is_sketch_of_union_witness :
  0 < 2
  /\ (forall x : list Z,
        x ∈ [[3]; [7]; [1; 2]] <-> x ∈ [[7]; [1; 2]] \/ x ∈ [[1; 2]; [3]])
  /\ exists a b u : MinWise.MinWise,
       MinWise.Sketch
         {| MinWise.h1 := fun x => Z.of_nat (length x);
            MinWise.h2 := fun x => hd 0 x |} 2 [[7]; [1; 2]]
       = MinWise.Success a
       /\ MinWise.Sketch
            {| MinWise.h1 := fun x => Z.of_nat (length x);
               MinWise.h2 := fun x => hd 0 x |} 2 [[1; 2]; [3]]
          = MinWise.Success b
       /\ MinWise.Sketch
            {| MinWise.h1 := fun x => Z.of_nat (length x);
               MinWise.h2 := fun x => hd 0 x |} 2 [[3]; [7]; [1; 2]]
          = MinWise.Success u
       /\ MinWise.Merge a b = MinWise.Success u
       /\ Z.of_nat (length (MinWise.minimums u)) = 2.
Proof.
  assert (Hu : forall x : list Z,
             x ∈ [[3]; [7]; [1; 2]] <-> x ∈ [[7]; [1; 2]] \/ x ∈ [[1; 2]; [3]]).
  { intros x. rewrite !elem_of_cons, !elem_of_nil. tauto. }
  split; [lia|]. split; [exact Hu|].
  apply (Merge_is_sketch_of_union
           {| MinWise.h1 := fun x => Z.of_nat (length x);
              MinWise.h2 := fun x => hd 0 x |}
           2 [[7]; [1; 2]] [[1; 2]; [3]] [[3]; [7]; [1; 2]]);
    [lia | exact Hu].
Defined.

(** ** Float64 arithmetic: digits, shifts and rounding *)

Import Float64.

Section Digits.

Lemma digits2_pos_bounds (p : positive) :
  2 ^ (Z.pos (digits2_pos p) - 1) <= Z.pos p < 2 ^ Z.pos (digits2_pos p).
Proof.
  induction p as [p IH|p IH|]; cbn [digits2_pos].
  - rewrite Pos2Z.inj_succ.
    replace (Z.succ (Z.pos (digits2_pos p)) - 1)
      with (Z.succ (Z.pos (digits2_pos p) - 1)) by lia.
    rewrite !Z.pow_succ_r by lia. lia.
  - rewrite Pos2Z.inj_succ.
    replace (Z.succ (Z.pos (digits2_pos p)) - 1)
      with (Z.succ (Z.pos (digits2_pos p) - 1)) by lia.
    rewrite !Z.pow_succ_r by lia. lia.
  - simpl. lia.
Qed.

Lemma Zdigits2_nonneg (m : Z) : 0 <= Zdigits2 m.
Proof. destruct m; simpl; lia. Qed.

Lemma Zdigits2_pos (m : Z) : 0 < m -> 0 < Zdigits2 m.
Proof. destruct m; simpl; lia. Qed.

Lemma Zdigits2_bounds (m : Z) :
  0 < m -> 2 ^ (Zdigits2 m - 1) <= m < 2 ^ Zdigits2 m.
Proof.
  destruct m as [|p|p]; try lia. intros _. apply digits2_pos_bounds.
Qed.

(** [m < 2^d] bounds the number of digits by [d]. *)
Lemma Zdigits2_le (m d : Z) : 0 <= m -> 0 <= d -> m < 2 ^ d -> Zdigits2 m <= d.
Proof.
  intros Hm Hd Hlt.
  destruct (Z.eq_dec m 0) as [->|Hne]; [simpl; lia|].
  destruct (Zdigits2_bounds m ltac:(lia)) as [Hlo _].
  destruct (Z_le_gt_dec (Zdigits2 m) d) as [|Hgt]; [assumption|].
  assert (2 ^ d <= 2 ^ (Zdigits2 m - 1)) by (apply Z.pow_le_mono_r; lia).
  lia.
Qed.

(** [2^(d-1) <= m] forces at least [d] digits. *)
Lemma Zdigits2_ge (m d : Z) : 0 < m -> 2 ^ (d - 1) <= m -> d <= Zdigits2 m.
Proof.
  intros Hm Hle.
  destruct (Zdigits2_bounds m Hm) as [_ Hhi].
  destruct (Z_le_gt_dec d (Zdigits2 m)) as [|Hgt]; [assumption|].
  pose proof (Zdigits2_nonneg m).
  assert (2 ^ Zdigits2 m <= 2 ^ (d - 1)) by (apply Z.pow_le_mono_r; lia).
  lia.
Qed.

Lemma Zdigits2_unique (m d : Z) :
  0 < m -> 2 ^ (d - 1) <= m < 2 ^ d -> Zdigits2 m = d.
Proof.
  intros Hm [Hlo Hhi].
  assert (0 <= d).
  { destruct (Z_lt_le_dec d 0); [|assumption].
    rewrite (Z.pow_neg_r 2 d) in Hhi by lia. lia. }
  pose proof (Zdigits2_le m d ltac:(lia) ltac:(lia) Hhi).
  pose proof (Zdigits2_ge m d Hm Hlo). lia.
Qed.

(** Dropping [k] low bits drops [k] digits. *)
Lemma Zdigits2_div_pow2 (m k : Z) :
  0 < m -> 0 <= k -> k < Zdigits2 m ->
  Zdigits2 (m / 2 ^ k) = Zdigits2 m - k.
Proof.
  intros Hm Hk Hlt.
  destruct (Zdigits2_bounds m Hm) as [Hlo Hhi].
  assert (Hp : 0 < 2 ^ k) by (apply Z.pow_pos_nonneg; lia).
  assert (E1 : 2 ^ (Zdigits2 m - 1) = 2 ^ (Zdigits2 m - k - 1) * 2 ^ k).
  { rewrite <- Z.pow_add_r by lia. f_equal. lia. }
  assert (E2 : 2 ^ Zdigits2 m = 2 ^ (Zdigits2 m - k) * 2 ^ k).
  { rewrite <- Z.pow_add_r by lia. f_equal. lia. }
  assert (Hq1 : 2 ^ (Zdigits2 m - k - 1) <= m / 2 ^ k).
  { apply Z.div_le_lower_bound; lia. }
  assert (Hq2 : m / 2 ^ k < 2 ^ (Zdigits2 m - k)).
  { apply Z.div_lt_upper_bound; lia. }
  assert (0 < 2 ^ (Zdigits2 m - k - 1)) by (apply Z.pow_pos_nonneg; lia).
  apply Zdigits2_unique; [lia|]. split; [exact Hq1 | exact Hq2].
Qed.

End Digits.

Section Shift.

Lemma iter_pos_nat {A : Type} (f : A -> A) (p : positive) (x : A) :
  SpecFloat.iter_pos f p x = Nat.iter (Pos.to_nat p) f x.
Proof.
  revert x. induction p as [p IH|p IH|]; intros x; cbn [SpecFloat.iter_pos].
  - rewrite !IH.
    replace (Pos.to_nat p~1) with (Pos.to_nat p + (Pos.to_nat p + 1))%nat by lia.
    rewrite !Nat.iter_add. reflexivity.
  - rewrite !IH.
    replace (Pos.to_nat p~0) with (Pos.to_nat p + Pos.to_nat p)%nat by lia.
    rewrite Nat.iter_add. reflexivity.
  - reflexivity.
Qed.

Lemma shr_1_m (r : shr_record) :
  0 <= shr_m r -> shr_m (shr_1 r) = shr_m r / 2 /\ 0 <= shr_m (shr_1 r).
Proof.
  destruct r as [m r s]. cbn [shr_m]. intros Hm.
  destruct m as [|[p|p|]|p]; cbn [shr_1 shr_m]; try lia;
    (split; [|lia]); try reflexivity.
  - rewrite (Pos2Z.inj_xI p).
    apply (Z.div_unique _ _ _ 1); lia.
  - rewrite (Pos2Z.inj_xO p).
    apply (Z.div_unique _ _ _ 0); lia.
Qed.

Lemma iter_shr_1_m (n : nat) (r : shr_record) :
  0 <= shr_m r ->
  shr_m (Nat.iter n shr_1 r) = shr_m r / 2 ^ Z.of_nat n
  /\ 0 <= shr_m (Nat.iter n shr_1 r).
Proof.
  intros Hm. induction n as [|n [IH1 IH2]].
  - simpl. rewrite Z.div_1_r. split; [reflexivity | assumption].
  - rewrite Nat.iter_succ. destruct (shr_1_m _ IH2) as [E1 E2].
    split; [|exact E2].
    rewrite E1, IH1, Nat2Z.inj_succ, Z.pow_succ_r by lia.
    rewrite Z.div_div by (try apply Z.pow_pos_nonneg; lia).
    f_equal. lia.
Qed.

(** The mantissa after [shr]: the quotient by [2^n]. *)
Lemma shr_m_shr (r : shr_record) (e n : Z) :
  0 <= shr_m r ->
  shr_m (fst (shr r e n)) = shr_m r / 2 ^ Z.max 0 n
  /\ snd (shr r e n) = e + Z.max 0 n.
Proof.
  intros Hm. destruct n as [|p|p]; cbn [shr fst snd].
  - simpl. rewrite Z.div_1_r. split; [reflexivity | lia].
  - rewrite iter_pos_nat.
    destruct (iter_shr_1_m (Pos.to_nat p) r Hm) as [E _].
    rewrite E, positive_nat_Z. split; [f_equal; f_equal; lia | lia].
  - simpl. rewrite Z.div_1_r. split; [reflexivity | lia].
Qed.

End Shift.

Section Rounding.

Lemma fexp_eq (e : Z) : fexp prec emax e = Z.max (e - 53) (-1074).
Proof. reflexivity. Qed.

Lemma shr_m_of_loc (m : Z) (l : location) : shr_m (shr_record_of_loc m l) = m.
Proof. destruct l as [|[]]; reflexivity. Qed.

Lemma shr_fexp_spec (m e : Z) (l : location) :
  0 <= m ->
  shr_m (fst (shr_fexp prec emax m e l))
  = m / 2 ^ Z.max 0 (fexp prec emax (Zdigits2 m + e) - e)
  /\ snd (shr_fexp prec emax m e l)
     = e + Z.max 0 (fexp prec emax (Zdigits2 m + e) - e).
Proof.
  intros Hm. unfold shr_fexp.
  pose proof (shr_m_shr (shr_record_of_loc m l) e
                (fexp prec emax (Zdigits2 m + e) - e)) as Hs.
  rewrite shr_m_of_loc in Hs. exact (Hs Hm).
Qed.

Lemma round_nearest_even_cases (m : Z) (l : location) :
  round_nearest_even m l = m \/ round_nearest_even m l = m + 1.
Proof.
  destruct l as [|[]]; cbn [round_nearest_even]; auto.
  destruct (Z.even m); auto.
Qed.

Lemma Zdigits2_pow2 (n : Z) : 0 <= n -> Zdigits2 (2 ^ n) = n + 1.
Proof.
  intros Hn. apply Zdigits2_unique.
  - apply Z.pow_pos_nonneg; lia.
  - replace (n + 1 - 1) with n by lia. split; [lia|].
    apply Z.pow_lt_mono_r; lia.
Qed.

(** The shape of a rounded result: the exponent is canonical and the
    magnitude keeps its binade, or moves up to the next power of two. *)
Lemma binary_round_aux_shape (sx : bool) (mx ex : Z) (lx : location) :
  0 < mx ->
  ex <= fexp prec emax (Zdigits2 mx + ex) ->
  -1074 < Zdigits2 mx + ex ->
  rounded sx (Zdigits2 mx + ex) (binary_round_aux prec emax sx mx ex lx).
Proof.
  intros Hmx Hk HE.
  set (E := Zdigits2 mx + ex) in *.
  unfold rounded, binary_round_aux.
  destruct (shr_fexp_spec mx ex lx ltac:(lia)) as [Hm' He'].
  destruct (shr_fexp prec emax mx ex lx) as [mrs' e'].
  cbn [fst snd] in Hm', He'. fold E in Hm', He'.
  rewrite Z.max_r in Hm', He' by lia.
  assert (He'E : e' = fexp prec emax E) by lia.
  pose proof (fexp_eq E) as HfE.
  assert (Hdm' : Zdigits2 (shr_m mrs') = E - e').
  { rewrite Hm', Zdigits2_div_pow2; unfold E in *; lia. }
  assert (Hm'pos : 0 < shr_m mrs').
  { destruct (Z_lt_le_dec 0 (shr_m mrs')) as [|Hle]; [assumption|].
    assert (Hz : shr_m mrs' = 0).
    { rewrite Hm'. rewrite Hm' in Hle.
      pose proof (Z.div_pos mx (2 ^ (fexp prec emax E - ex)) ltac:(lia)
                    ltac:(apply Z.pow_pos_nonneg; lia)). lia. }
    rewrite Hz in Hdm'. simpl in Hdm'. lia. }
  destruct (Zdigits2_bounds _ Hm'pos) as [Hlo Hhi]. rewrite Hdm' in Hlo, Hhi.
  set (m1 := round_nearest_even (shr_m mrs') (loc_of_shr_record mrs')).
  assert (Hm1 : m1 = shr_m mrs' \/ m1 = shr_m mrs' + 1)
    by apply round_nearest_even_cases.
  assert (Hm1pos : 0 < m1) by lia.
  destruct (shr_fexp_spec m1 e' loc_Exact ltac:(lia)) as [Hm'' He''].
  destruct (shr_fexp prec emax m1 e' loc_Exact) as [mrs'' e''].
  cbn [fst snd] in Hm'', He''.
  destruct (Z_lt_le_dec m1 (2 ^ (E - e'))) as [Hsmall|Hbig].
  - (* no carry *)
    assert (Hd1 : Zdigits2 m1 = E - e') by (apply Zdigits2_unique; lia).
    rewrite Hd1 in Hm'', He''.
    replace (E - e' + e') with E in Hm'', He'' by lia.
    rewrite Z.max_l in Hm'', He'' by lia.
    rewrite Z.pow_0_r, Z.div_1_r in Hm''.
    rewrite Hm''. destruct m1 as [|m|m]; try lia.
    destruct (Z.leb_spec e'' (emax - prec)) as [Hle|Hgt];
      [|left; unfold emax, prec in Hgt; split; [lia | reflexivity]].
    right. exists m, e''. split; [reflexivity|].
    change (Z.pos (digits2_pos m)) with (Zdigits2 (Z.pos m)).
    rewrite Hd1. replace (E - e' + e'') with E by lia.
    unfold emax, prec in Hle. repeat split; try lia.
  - (* the mantissa rounds up to a power of two *)
    assert (Hm1eq : m1 = 2 ^ (E - e')) by lia.
    assert (Hd1 : Zdigits2 m1 = E - e' + 1)
      by (rewrite Hm1eq; apply Zdigits2_pow2; lia).
    rewrite Hd1 in Hm'', He''.
    replace (E - e' + 1 + e') with (E + 1) in Hm'', He'' by lia.
    pose proof (fexp_eq (E + 1)) as HfE1.
    set (k2 := Z.max 0 (fexp prec emax (E + 1) - e')) in *.
    assert (Hk2 : k2 = 0 \/ k2 = 1) by lia.
    assert (Hm''eq : shr_m mrs'' = 2 ^ (E - e' - k2)).
    { rewrite Hm'', Hm1eq.
      replace (E - e') with ((E - e' - k2) + k2) at 1 by lia.
      rewrite Z.pow_add_r by lia.
      apply Z.div_mul. pose proof (Z.pow_pos_nonneg 2 k2). lia. }
    assert (Hd'' : Zdigits2 (shr_m mrs'') = E - e' - k2 + 1)
      by (rewrite Hm''eq; apply Zdigits2_pow2; lia).
    assert (0 < shr_m mrs'')
      by (rewrite Hm''eq; apply Z.pow_pos_nonneg; lia).
    destruct (shr_m mrs'') as [|m|m]; try lia.
    destruct (Z.leb_spec e'' (emax - prec)) as [Hle|Hgt];
      [|left; unfold emax, prec in Hgt; split; [lia | reflexivity]].
    right. exists m, e''. split; [reflexivity|].
    change (Z.pos (digits2_pos m)) with (Zdigits2 (Z.pos m)).
    rewrite Hd''. unfold emax, prec in Hle.
    replace (E - e' - k2 + 1 + e'') with (E + 1) by lia.
    repeat split; try lia.
    right. split; [lia|]. rewrite Hm''eq. f_equal. lia.
Qed.

End Rounding.

Section Exact.

(** Rounding a canonical mantissa with nothing to discard is the
    identity. *)
Lemma binary_round_aux_canonical (s : bool) (m : positive) (e : Z) :
  fexp prec emax (Z.pos (digits2_pos m) + e) = e ->
  e <= 971 ->
  binary_round_aux prec emax s (Z.pos m) e loc_Exact = S754_finite s m e.
Proof.
  intros Hc He. unfold binary_round_aux, shr_fexp. cbn [Zdigits2].
  rewrite Hc, Z.sub_diag. cbn [shr shr_record_of_loc shr_m
    loc_of_shr_record round_nearest_even Zdigits2].
  rewrite Hc, Z.sub_diag. cbn [shr shr_record_of_loc shr_m].
  destruct (Z.leb_spec e (emax - prec)) as [|Hgt]; [reflexivity|].
  unfold emax, prec in Hgt. lia.
Qed.

Lemma Pos_iter_xO (m c : positive) :
  Z.pos (Pos.iter xO m c) = Z.pos m * 2 ^ Z.pos c.
Proof.
  induction c as [|c IH] using Pos.peano_ind.
  - simpl. lia.
  - rewrite Pos.iter_succ, Pos2Z.inj_xO, IH, Pos2Z.inj_succ, Z.pow_succ_r by lia.
    lia.
Qed.

(** [shl_align] pads a short mantissa up to the canonical exponent. *)
Lemma shl_align_value (m : positive) (e e' : Z) :
  e' <= e ->
  Z.pos (fst (shl_align m e e')) = Z.pos m * 2 ^ (e - e')
  /\ snd (shl_align m e e') = e'.
Proof.
  intros Hle. unfold shl_align.
  destruct (e' - e) as [|d|d] eqn:Hd; cbn [fst snd]; try lia.
  - replace (e - e') with 0 by lia. rewrite Z.pow_0_r. lia.
  - rewrite Pos_iter_xO. replace (e - e') with (Z.pos d) by lia. lia.
Qed.

(** Integers below [2^53] convert without rounding. *)
Lemma of_int_small (z : Z) :
  0 < z < 2 ^ 53 ->
  exists m : positive,
    of_int z = S754_finite false m (Zdigits2 z - 53)
    /\ Z.pos m = z * 2 ^ (53 - Zdigits2 z)
    /\ Z.pos (digits2_pos m) = 53.
Proof.
  intros [Hz Hlt]. destruct z as [|p|p]; try lia.
  unfold of_int, binary_normalize, binary_round.
  pose proof (Zdigits2_le (Z.pos p) 53 ltac:(lia) ltac:(lia) Hlt) as Hd.
  pose proof (Zdigits2_pos (Z.pos p) ltac:(lia)) as Hd0.
  cbn [Zdigits2] in *.
  rewrite Z.add_0_r, fexp_eq, Z.max_l by lia.
  destruct (shl_align_value p 0 (Z.pos (digits2_pos p) - 53) ltac:(lia))
    as [Hm He].
  destruct (shl_align p 0 (Z.pos (digits2_pos p) - 53)) as [mz ez].
  cbn [fst snd] in Hm, He. subst ez.
  replace (0 - (Z.pos (digits2_pos p) - 53))
    with (53 - Z.pos (digits2_pos p)) in Hm by lia.
  assert (Hdz : Z.pos (digits2_pos mz) = 53).
  { change (Zdigits2 (Z.pos mz) = 53). apply Zdigits2_unique; [lia|].
    rewrite Hm. destruct (digits2_pos_bounds p) as [Hlo Hhi].
    assert (Hp : 0 < 2 ^ (53 - Z.pos (digits2_pos p)))
      by (apply Z.pow_pos_nonneg; lia).
    replace (2 ^ (53 - 1))
      with (2 ^ (Z.pos (digits2_pos p) - 1) * 2 ^ (53 - Z.pos (digits2_pos p)))
      by (rewrite <- Z.pow_add_r by lia; f_equal; lia).
    replace (2 ^ 53)
      with (2 ^ Z.pos (digits2_pos p) * 2 ^ (53 - Z.pos (digits2_pos p)))
      by (rewrite <- Z.pow_add_r by lia; f_equal; lia).
    split; [apply Z.mul_le_mono_nonneg_r | apply Z.mul_lt_mono_pos_r]; lia. }
  exists mz. split; [|split; assumption].
  apply binary_round_aux_canonical; [|lia].
  rewrite Hdz, fexp_eq. lia.
Qed.

Lemma to_int_of_int_small (z : Z) : 0 <= z < 2 ^ 53 -> to_int (of_int z) = z.
Proof.
  intros [Hz Hlt]. destruct (Z.eq_dec z 0) as [->|Hne]; [reflexivity|].
  destruct (of_int_small z ltac:(lia)) as (m & -> & Hm & Hd).
  pose proof (Zdigits2_le z 53 ltac:(lia) ltac:(lia) Hlt) as Hd53.
  unfold to_int. cbn [cond_Zopp].
  assert (Ht : (if 0 <=? Zdigits2 z - 53 then Z.pos m * 2 ^ (Zdigits2 z - 53)
                else Z.pos m / 2 ^ (- (Zdigits2 z - 53))) = z).
  { destruct (Z.leb_spec 0 (Zdigits2 z - 53)).
    - assert (Hd' : Zdigits2 z = 53) by lia.
      rewrite Hm, Hd'. simpl. lia.
    - rewrite Hm. replace (- (Zdigits2 z - 53)) with (53 - Zdigits2 z) by lia.
      apply Z.div_mul. pose proof (Z.pow_pos_nonneg 2 (53 - Zdigits2 z)). lia. }
  rewrite Ht. unfold MinInt64, MaxInt64.
  destruct (Z.leb_spec (- 2 ^ 63) z); [|lia].
  destruct (Z.leb_spec z (2 ^ 63 - 1)); [reflexivity|lia].
Qed.

(** [int(math.Floor(x))] on a float below [2^63] is the integer part of
    the number [x] stands for. *)
Lemma to_int_Floor_nonneg (m : positive) (e : Z) :
  Z.pos (digits2_pos m) <= 53 ->
  Z.pos (digits2_pos m) + e <= 63 ->
  to_int (Floor (S754_finite false m e))
  = Qfloor (to_Q (S754_finite false m e)).
Proof.
  intros Hd HE. destruct (digits2_pos_bounds m) as [Hlo Hhi].
  unfold Floor, to_Q. cbn [cond_Zopp].
  destruct (Z.leb_spec 0 e) as [He|He].
  - rewrite Qfloor_Z. unfold to_int. cbn [cond_Zopp].
    destruct (Z.leb_spec 0 e); [|lia].
    assert (Hb : 0 < Z.pos m * 2 ^ e < 2 ^ 63).
    { pose proof (Z.pow_pos_nonneg 2 e ltac:(lia) He).
      split; [lia|].
      assert (2 ^ (Z.pos (digits2_pos m) + e) <= 2 ^ 63)
        by (apply Z.pow_le_mono_r; lia).
      rewrite Z.pow_add_r in * by lia. nia. }
    unfold MinInt64, MaxInt64.
    destruct (Z.leb_spec (- 2 ^ 63) (Z.pos m * 2 ^ e)); [|lia].
    destruct (Z.leb_spec (Z.pos m * 2 ^ e) (2 ^ 63 - 1)); [reflexivity|lia].
  - assert (Hp : 0 < 2 ^ (- e)) by (apply Z.pow_pos_nonneg; lia).
    unfold Qfloor. rewrite Z2Pos.id by lia.
    change (binary_normalize prec emax (Z.pos m / 2 ^ (- e)) 0 false)
      with (of_int (Z.pos m / 2 ^ (- e))).
    apply to_int_of_int_small. split.
    + apply Z.div_pos; lia.
    + assert (Z.pos m / 2 ^ (- e) <= Z.pos m)
        by (apply Z.div_le_upper_bound; nia).
      assert (2 ^ Z.pos (digits2_pos m) <= 2 ^ 53)
        by (apply Z.pow_le_mono_r; lia).
      lia.
Qed.

End Exact.

Section Operations.

Lemma fexp_mono (a b : Z) : a <= b -> fexp prec emax a <= fexp prec emax b.
Proof. rewrite !fexp_eq. lia. Qed.

Lemma Zdigits2_mul_pow2 (m k : Z) :
  0 < m -> 0 <= k -> Zdigits2 (m * 2 ^ k) = Zdigits2 m + k.
Proof.
  intros Hm Hk. destruct (Zdigits2_bounds m Hm) as [Hlo Hhi].
  pose proof (Zdigits2_pos m Hm).
  assert (Hp : 0 < 2 ^ k) by (apply Z.pow_pos_nonneg; lia).
  apply Zdigits2_unique; [lia|].
  replace (Zdigits2 m + k - 1) with (Zdigits2 m - 1 + k) by lia.
  rewrite !Z.pow_add_r by lia. split.
  - apply Z.mul_le_mono_nonneg_r; lia.
  - apply Z.mul_lt_mono_pos_r; lia.
Qed.

(** [binary_round] first pads the mantissa, then rounds. *)
Lemma binary_round_shape (s : bool) (p : positive) (e : Z) :
  -1074 < Z.pos (digits2_pos p) + e ->
  rounded s (Z.pos (digits2_pos p) + e) (binary_round prec emax s p e).
Proof.
  intros HE. unfold binary_round.
  set (E := Z.pos (digits2_pos p) + e) in *.
  destruct (Z_le_gt_dec (fexp prec emax E) e) as [Hle|Hgt].
  - destruct (shl_align_value p e (fexp prec emax E) Hle) as [Hm He].
    destruct (shl_align p e (fexp prec emax E)) as [mz ez].
    cbn [fst snd] in Hm, He. subst ez.
    assert (Hd : Zdigits2 (Z.pos mz) + fexp prec emax E = E).
    { rewrite Hm, Zdigits2_mul_pow2 by lia. cbn [Zdigits2]. unfold E. lia. }
    rewrite <- Hd at 1.
    apply binary_round_aux_shape; [lia | rewrite Hd; lia | rewrite Hd; lia].
  - unfold shl_align.
    destruct (fexp prec emax E - e) as [|d|d] eqn:Hd; try lia.
    change E with (Zdigits2 (Z.pos p) + e).
    apply binary_round_aux_shape; cbn [Zdigits2]; fold E; lia.
Qed.

(** The quotient and exponent computed by the division core; the
    location is exact when the division leaves no remainder. *)
Lemma SFdiv_core_binary_spec (m1 m2 : positive) (e1 e2 : Z) :
  let e' := Z.min (fexp prec emax (Z.pos (digits2_pos m1) + e1
                                   - (Z.pos (digits2_pos m2) + e2)))
                  (e1 - e2) in
  exists l : location,
    SFdiv_core_binary prec emax (Z.pos m1) e1 (Z.pos m2) e2
    = (Z.pos m1 * 2 ^ (e1 - e2 - e') / Z.pos m2, e', l)
    /\ ((Z.pos m1 * 2 ^ (e1 - e2 - e')) mod Z.pos m2 = 0 -> l = loc_Exact).
Proof.
  intros e'. unfold SFdiv_core_binary. cbn [Zdigits2]. fold e'.
  assert (Hs : 0 <= e1 - e2 - e') by (unfold e'; lia).
  assert (Hm : match e1 - e2 - e' with
               | Z.pos _ => Z.shiftl (Z.pos m1) (e1 - e2 - e')
               | 0 => Z.pos m1
               | Z.neg _ => 0
               end = Z.pos m1 * 2 ^ (e1 - e2 - e')).
  { destruct (e1 - e2 - e') as [|s|s] eqn:Es; try lia.
    apply Z.shiftl_mul_pow2. lia. }
  rewrite Hm. unfold Z.div, Z.modulo.
  destruct (Z.div_eucl (Z.pos m1 * 2 ^ (e1 - e2 - e')) (Z.pos m2)) as [q r].
  eexists. split; [reflexivity|].
  intros ->. unfold new_location, new_location_even, new_location_odd.
  destruct (Z.even (Z.pos m2)); reflexivity.
Qed.

(** Digits of a quotient of scaled mantissas. *)
Lemma Zdigits2_quotient (m1 m2 s : Z) :
  0 < m1 -> 0 < m2 -> 0 <= s ->
  1 <= Zdigits2 m1 + s - Zdigits2 m2 ->
  Zdigits2 m1 + s - Zdigits2 m2 <= Zdigits2 (m1 * 2 ^ s / m2)
  /\ Zdigits2 (m1 * 2 ^ s / m2) <= Zdigits2 m1 + s - Zdigits2 m2 + 1
  /\ 0 < m1 * 2 ^ s / m2.
Proof.
  intros H1 H2 Hs Hd.
  destruct (Zdigits2_bounds m1 H1) as [Hlo1 Hhi1].
  destruct (Zdigits2_bounds m2 H2) as [Hlo2 Hhi2].
  pose proof (Zdigits2_pos m1 H1). pose proof (Zdigits2_pos m2 H2).
  set (d1 := Zdigits2 m1) in *. set (d2 := Zdigits2 m2) in *.
  assert (Hps : 0 < 2 ^ s) by (apply Z.pow_pos_nonneg; lia).
  assert (Hlow : 2 ^ (d1 + s - d2 - 1) <= m1 * 2 ^ s / m2).
  { apply Z.div_le_lower_bound; [lia|].
    (* m2 * 2^(d1+s-d2-1) <= 2^d2 * 2^(d1+s-d2-1) = 2^(d1-1) * 2^s *)
    assert (Hp : 0 < 2 ^ (d1 + s - d2 - 1)) by (apply Z.pow_pos_nonneg; lia).
    assert (E : 2 ^ d2 * 2 ^ (d1 + s - d2 - 1) = 2 ^ (d1 - 1) * 2 ^ s).
    { rewrite <- !Z.pow_add_r by lia. f_equal. lia. }
    assert (m2 * 2 ^ (d1 + s - d2 - 1) <= 2 ^ d2 * 2 ^ (d1 + s - d2 - 1))
      by (apply Z.mul_le_mono_nonneg_r; lia).
    assert (2 ^ (d1 - 1) * 2 ^ s <= m1 * 2 ^ s)
      by (apply Z.mul_le_mono_nonneg_r; lia).
    lia. }
  assert (Hupp : m1 * 2 ^ s / m2 < 2 ^ (d1 + s - d2 + 1)).
  { apply Z.div_lt_upper_bound; [lia|].
    assert (Hp : 0 < 2 ^ (d1 + s - d2 + 1)) by (apply Z.pow_pos_nonneg; lia).
    assert (E : 2 ^ (d2 - 1) * 2 ^ (d1 + s - d2 + 1) = 2 ^ d1 * 2 ^ s).
    { rewrite <- !Z.pow_add_r by lia. f_equal. lia. }
    assert (2 ^ (d2 - 1) * 2 ^ (d1 + s - d2 + 1)
            <= m2 * 2 ^ (d1 + s - d2 + 1))
      by (apply Z.mul_le_mono_nonneg_r; lia).
    assert (m1 * 2 ^ s < 2 ^ d1 * 2 ^ s)
      by (apply Z.mul_lt_mono_pos_r; lia).
    lia. }
  assert (Hpos : 0 < m1 * 2 ^ s / m2).
  { assert (0 < 2 ^ (d1 + s - d2 - 1)) by (apply Z.pow_pos_nonneg; lia). lia. }
  split; [|split; [|exact Hpos]].
  - apply Zdigits2_ge; [exact Hpos | exact Hlow].
  - apply Zdigits2_le; lia.
Qed.

(** Division of two positive finite floats rounds the integer quotient
    [q] at exponent [e'], whose binade is that of the exact quotient. *)
Lemma div_finite_shape (m1 m2 : positive) (e1 e2 : Z) :
  let E1 := Z.pos (digits2_pos m1) + e1 in
  let E2 := Z.pos (digits2_pos m2) + e2 in
  let e' := Z.min (fexp prec emax (E1 - E2)) (e1 - e2) in
  let q := Z.pos m1 * 2 ^ (e1 - e2 - e') / Z.pos m2 in
  -1074 < E1 - E2 ->
  E1 - E2 <= Zdigits2 q + e' <= E1 - E2 + 1
  /\ rounded false (Zdigits2 q + e')
       (div (S754_finite false m1 e1) (S754_finite false m2 e2)).
Proof.
  intros E1 E2 e' q HE. unfold div, SFdiv.
  destruct (SFdiv_core_binary_spec m1 m2 e1 e2) as [l [Hcore _]].
  cbv zeta in Hcore. fold E1 E2 e' q in Hcore.
  rewrite Hcore. cbn [xorb].
  pose proof (fexp_eq (E1 - E2)) as Hf.
  pose proof (Zdigits2_pos (Z.pos m1) ltac:(lia)) as Hd1.
  pose proof (Zdigits2_pos (Z.pos m2) ltac:(lia)) as Hd2.
  cbn [Zdigits2] in Hd1, Hd2.
  destruct (Zdigits2_quotient (Z.pos m1) (Z.pos m2) (e1 - e2 - e')
              ltac:(lia) ltac:(lia) ltac:(unfold e'; lia)
              ltac:(cbn [Zdigits2]; unfold e', E1, E2 in *; lia))
    as (Hq1 & Hq2 & Hq0).
  cbn [Zdigits2] in Hq1, Hq2. fold q in Hq1, Hq2, Hq0.
  split; [unfold E1, E2; lia|].
  apply binary_round_aux_shape; [exact Hq0 | | unfold E1, E2 in *; lia].
  transitivity (fexp prec emax (E1 - E2)); [unfold e'; lia|].
  apply fexp_mono. unfold E1, E2. lia.
Qed.

(** A canonical mantissa has at most 53 bits. *)
Lemma canonical_digits (m : positive) (e : Z) :
  fexp prec emax (Z.pos (digits2_pos m) + e) = e ->
  Z.pos (digits2_pos m) <= 53.
Proof. rewrite fexp_eq. lia. Qed.

(** [x <= y] on positive finite floats, read on exponent and mantissa. *)
Lemma leb_finite_pos (m1 : positive) (e1 : Z) (m2 : positive) (e2 : Z) :
  leb (S754_finite false m1 e1) (S754_finite false m2 e2) = true ->
  e1 < e2 \/ (e1 = e2 /\ Z.pos m1 <= Z.pos m2).
Proof.
  unfold leb, SFleb, SFcompare.
  destruct (Z.compare_spec e1 e2) as [He|He|He]; [| |discriminate].
  - change (Pos.compare_cont Eq m1 m2) with (m1 ?= m2)%positive.
    destruct (Pos.compare_spec m1 m2) as [Hm|Hm|Hm]; [| |discriminate];
      intros _; right; split; try assumption; lia.
  - intros _. by left.
Qed.

(** [1.0 / js] for [0 < js <= 1]: infinite, or a float at or above 1. *)
Lemma div_one_ge_one (js : float64) :
  valid js = true -> ltb zero js = true -> leb js one = true ->
  div one js = S754_infinity false
  \/ exists (m : positive) (e : Z),
       div one js = S754_finite false m e
       /\ fexp prec emax (Z.pos (digits2_pos m) + e) = e
       /\ e <= 971
       /\ 1 <= Z.pos (digits2_pos m) + e.
Proof.
  intros Hv Hpos Hle.
  destruct js as [s|s| |s mj ej]; try discriminate.
  - destruct s; discriminate.
  - destruct s; [discriminate|].
    unfold valid, valid_binary, bounded, canonical_mantissa in Hv.
    apply andb_prop in Hv as [Hc Hb].
    apply Z.eqb_eq in Hc. apply Z.leb_le in Hb.
    pose proof (canonical_digits mj ej Hc) as Hdj.
    pose proof (fexp_eq (Z.pos (digits2_pos mj) + ej)) as Hf.
    apply (leb_finite_pos mj ej 4503599627370496 (-52)) in Hle.
    destruct Hle as [He|[He Hm]].
    2: { (* ej = -52: js is 1.0 itself *)
      assert (Hd : Z.pos (digits2_pos mj) = 53) by lia.
      destruct (digits2_pos_bounds mj) as [Hlo _]. rewrite Hd in Hlo.
      change (Z.pos 4503599627370496) with (2 ^ 52) in Hm.
      assert (HZ : Z.pos mj = 2 ^ 52) by (change (2 ^ (53 - 1)) with (2 ^ 52) in Hlo; lia).
      change (2 ^ 52) with (Z.pos 4503599627370496) in HZ.
      injection HZ as ->. subst ej.
      right. exists 4503599627370496%positive, (-52).
      repeat split; vm_compute; congruence. }
    (* ej < -52: js < 1 *)
    destruct (div_finite_shape 4503599627370496 mj (-52) ej) as [HE Hr].
    { change (Z.pos (digits2_pos 4503599627370496)) with 53. lia. }
    cbv zeta in HE, Hr.
    change (Z.pos (digits2_pos 4503599627370496)) with 53 in HE, Hr.
    fold one in Hr.
    destruct Hr as [[_ ->]|(m & e & -> & Hcan & He971 & HEr)]; [by left|].
    right. exists m, e. repeat split; try assumption. lia.
Qed.

(** Adding 1.0 to a float at or above 1 gives infinity or a normal
    float at or above 2. *)
Lemma add_one_ge_two (m : positive) (e : Z) :
  e <= 971 ->
  1 <= Z.pos (digits2_pos m) + e ->
  add (S754_finite false m e) one = S754_infinity false
  \/ exists (m' : positive) (e' : Z),
       add (S754_finite false m e) one = S754_finite false m' e'
       /\ Z.pos (digits2_pos m') = 53
       /\ -51 <= e' <= 971.
Proof.
  intros He HE. unfold add, SFadd, one. cbn [cond_Zopp].
  set (ez := Z.min e (-52)).
  destruct (shl_align_value m e ez ltac:(unfold ez; lia)) as [Ha _].
  destruct (shl_align_value 4503599627370496 (-52) ez ltac:(unfold ez; lia))
    as [Hb _].
  set (a := fst (shl_align m e ez)) in *.
  set (b := fst (shl_align 4503599627370496 (-52) ez)) in *.
  change (Z.pos a + Z.pos b) with (Z.pos (a + b)).
  cbn [binary_normalize].
  assert (Hb' : Z.pos b = 2 ^ (- ez)).
  { rewrite Hb. change (Z.pos 4503599627370496) with (2 ^ 52).
    rewrite <- Z.pow_add_r by (unfold ez; lia). f_equal. lia. }
  assert (Ha' : 2 ^ (- ez) <= Z.pos a).
  { rewrite Ha. destruct (digits2_pos_bounds m) as [Hlo _].
    pose proof (Zdigits2_pos (Z.pos m) ltac:(lia)) as Hd. cbn [Zdigits2] in Hd.
    assert (Hp : 0 < 2 ^ (e - ez)) by (apply Z.pow_pos_nonneg; unfold ez; lia).
    assert (2 ^ (Z.pos (digits2_pos m) - 1) * 2 ^ (e - ez)
            <= Z.pos m * 2 ^ (e - ez))
      by (apply Z.mul_le_mono_nonneg_r; lia).
    rewrite <- Z.pow_add_r in * by (unfold ez; lia).
    assert (2 ^ (- ez) <= 2 ^ (Z.pos (digits2_pos m) - 1 + (e - ez)))
      by (apply Z.pow_le_mono_r; lia).
    lia. }
  assert (Hsum : 2 - ez <= Zdigits2 (Z.pos (a + b))).
  { apply Zdigits2_ge; [lia|].
    replace (2 - ez - 1) with (Z.succ (- ez)) by lia.
    rewrite Z.pow_succ_r by (unfold ez; lia).
    rewrite Pos2Z.inj_add. lia. }
  cbn [Zdigits2] in Hsum.
  destruct (binary_round_shape false (a + b) ez ltac:(unfold ez in *; lia))
    as [[_ ->]|(m' & e' & -> & Hcan & He' & HEr)]; [by left|].
  right. exists m', e'. split; [reflexivity|].
  pose proof (fexp_eq (Z.pos (digits2_pos m') + e')) as Hf.
  lia.
Qed.

(** [float64(z)] for a positive [int]: a normal float of at most 2^63. *)
Lemma of_int_shape (z : Z) :
  0 < z < 2 ^ 63 ->
  exists (m : positive) (e : Z),
    of_int z = S754_finite false m e
    /\ Z.pos (digits2_pos m) = 53
    /\ -52 <= e <= 11
    /\ Z.pos m <= 2 ^ (63 - e).
Proof.
  intros [Hz Hlt]. destruct z as [|p|p]; try lia.
  pose proof (Zdigits2_le (Z.pos p) 63 ltac:(lia) ltac:(lia) Hlt) as Hd.
  pose proof (Zdigits2_pos (Z.pos p) ltac:(lia)) as Hd0.
  cbn [Zdigits2] in Hd, Hd0.
  unfold of_int, binary_normalize.
  destruct (binary_round_shape false p 0 ltac:(lia))
    as [[Hbig _]|(m & e & -> & Hcan & He & HEr)]; [lia|].
  exists m, e. split; [reflexivity|].
  pose proof (fexp_eq (Z.pos (digits2_pos m) + e)) as Hf.
  destruct (digits2_pos_bounds m) as [_ Hhi].
  assert (Hd53 : Z.pos (digits2_pos m) = 53) by lia.
  repeat split; try lia.
  destruct HEr as [HEr|[HEr Hpow]].
  - rewrite Hd53 in Hhi.
    assert (2 ^ 53 <= 2 ^ (63 - e)) by (apply Z.pow_le_mono_r; lia). lia.
  - rewrite Hpow, Hd53. apply Z.pow_le_mono_r; lia.
Qed.

(** The same when the exact quotient is strictly below 2^62. *)
Lemma div_below_2_63_strict (m1 m2 : positive) (e1 e2 : Z) :
  Z.pos (digits2_pos m1) = 53 -> -52 <= e1 <= 11 ->
  Z.pos (digits2_pos m2) = 53 -> -51 <= e2 <= 971 ->
  Z.pos m1 < Z.pos m2 * 2 ^ (62 - e1 + e2) ->
  exists (m : positive) (e : Z),
    div (S754_finite false m1 e1) (S754_finite false m2 e2)
    = S754_finite false m e
    /\ Z.pos (digits2_pos m) <= 53
    /\ Z.pos (digits2_pos m) + e <= 63.
Proof.
  intros Hd1 He1 Hd2 He2 Hlt.
  destruct (div_finite_shape m1 m2 e1 e2) as [HE Hr]; [lia|].
  cbv zeta in HE, Hr. rewrite Hd1, Hd2 in HE, Hr.
  pose proof (fexp_eq (53 + e1 - (53 + e2))) as Hf.
  set (e' := Z.min (fexp prec emax (53 + e1 - (53 + e2))) (e1 - e2)) in *.
  set (q := Z.pos m1 * 2 ^ (e1 - e2 - e') / Z.pos m2) in *.
  assert (Hq : q < 2 ^ (62 - e')).
  { apply Z.div_lt_upper_bound; [lia|].
    replace (62 - e') with ((62 - e1 + e2) + (e1 - e2 - e')) by lia.
    rewrite Z.pow_add_r by lia.
    assert (0 < 2 ^ (e1 - e2 - e')) by (apply Z.pow_pos_nonneg; lia).
    rewrite Z.mul_assoc. apply Z.mul_lt_mono_pos_r; lia. }
  assert (Hq0 : 0 <= q).
  { apply Z.div_pos; [|lia].
    assert (0 < 2 ^ (e1 - e2 - e')) by (apply Z.pow_pos_nonneg; lia). lia. }
  pose proof (Zdigits2_le q (62 - e') Hq0 ltac:(lia) Hq) as Hdq.
  destruct Hr as [[Hbig _]|(m & e & -> & Hcan & He & HEr)]; [lia|].
  exists m, e. split; [reflexivity|].
  split; [by apply (canonical_digits m e) | lia].
Qed.

(** Dividing a float of at most 2^63 by a float of at least 2 stays
    below 2^63. *)
Lemma div_below_2_63 (m1 m2 : positive) (e1 e2 : Z) :
  Z.pos (digits2_pos m1) = 53 -> -52 <= e1 <= 11 ->
  Z.pos m1 <= 2 ^ (63 - e1) ->
  Z.pos (digits2_pos m2) = 53 -> -51 <= e2 <= 971 ->
  exists (m : positive) (e : Z),
    div (S754_finite false m1 e1) (S754_finite false m2 e2)
    = S754_finite false m e
    /\ Z.pos (digits2_pos m) <= 53
    /\ Z.pos (digits2_pos m) + e <= 63.
Proof.
  intros Hd1 He1 Hm1 Hd2 He2.
  destruct (digits2_pos_bounds m1) as [Hlo1 Hhi1].
  destruct (digits2_pos_bounds m2) as [Hlo2 Hhi2].
  rewrite Hd1 in Hlo1, Hhi1. rewrite Hd2 in Hlo2, Hhi2.
  change (2 ^ (53 - 1)) with (2 ^ 52) in *.
  destruct (Z.eq_dec (Z.pos m1) (2 ^ (63 - e1))) as [Heq1|Hne1];
    [destruct (Z.eq_dec (Z.pos m2) (2 ^ 52)) as [Heq2|Hne2];
      [destruct (Z.eq_dec e2 (-51)) as [Heq3|Hne3]|]|].
  - (* 2^63 / 2 *)
    assert (He11 : e1 = 11).
    { assert (Hd : Zdigits2 (Z.pos m1) = 63 - e1 + 1)
        by (rewrite Heq1; apply Zdigits2_pow2; lia).
      cbn [Zdigits2] in Hd. lia. }
    subst e1 e2. change (2 ^ (63 - 11)) with (Z.pos 4503599627370496) in Heq1.
    change (2 ^ 52) with (Z.pos 4503599627370496) in Heq2.
    injection Heq1 as ->. injection Heq2 as ->.
    eexists _, _. split; [vm_compute; reflexivity|]. vm_compute.
    split; congruence.
  - apply div_below_2_63_strict; try assumption.
    assert (2 ^ (63 - e1) < 2 ^ (114 - e1 + e2)) by (apply Z.pow_lt_mono_r; lia).
    replace (114 - e1 + e2) with (52 + (62 - e1 + e2)) in * by lia.
    rewrite Z.pow_add_r in * by lia.
    assert (0 < 2 ^ (62 - e1 + e2)) by (apply Z.pow_pos_nonneg; lia).
    nia.
  - apply div_below_2_63_strict; try assumption.
    assert (2 ^ (63 - e1) <= 2 ^ (114 - e1 + e2)) by (apply Z.pow_le_mono_r; lia).
    replace (114 - e1 + e2) with (52 + (62 - e1 + e2)) in * by lia.
    rewrite Z.pow_add_r in * by lia.
    assert (0 < 2 ^ (62 - e1 + e2)) by (apply Z.pow_pos_nonneg; lia).
    nia.
  - apply div_below_2_63_strict; try assumption.
    assert (2 ^ (63 - e1) <= 2 ^ (114 - e1 + e2)) by (apply Z.pow_le_mono_r; lia).
    replace (114 - e1 + e2) with (52 + (62 - e1 + e2)) in * by lia.
    rewrite Z.pow_add_r in * by lia.
    assert (0 < 2 ^ (62 - e1 + e2)) by (apply Z.pow_pos_nonneg; lia).
    nia.
Qed.

End Operations.

Section IntersectionFloat.

Lemma int64_small (z : Z) : - 2 ^ 63 <= z < 2 ^ 63 -> int64 z = z.
Proof. intros Hz. unfold int64. rewrite Z.mod_small; lia. Qed.

(** For a positive similarity the second branch is taken. *)
Lemma Intersection_positive (js : float64) (n m : Z) :
  ltb zero js = true ->
  Intersection js n m
  = to_int (Floor (div (of_int (int_add n m)) (add (div one js) one))).
Proof.
  intros Hpos. unfold Intersection.
  destruct js as [s|s| |s mj ej]; try discriminate; destruct s;
    try discriminate; reflexivity.
Qed.

(** The float64 quotient of [Intersection] is zero or a canonical float
    below 2^63. *)
Lemma quotient_shape (js : float64) (z : Z) :
  valid js = true -> ltb zero js = true -> leb js one = true ->
  0 <= z < 2 ^ 63 ->
  div (of_int z) (add (div one js) one) = S754_zero false
  \/ exists (m : positive) (e : Z),
       div (of_int z) (add (div one js) one) = S754_finite false m e
       /\ Z.pos (digits2_pos m) <= 53
       /\ Z.pos (digits2_pos m) + e <= 63.
Proof.
  intros Hv Hpos Hle Hz.
  assert (Hd : add (div one js) one = S754_infinity false
               \/ exists (m' : positive) (e' : Z),
                    add (div one js) one = S754_finite false m' e'
                    /\ Z.pos (digits2_pos m') = 53 /\ -51 <= e' <= 971).
  { destruct (div_one_ge_one js Hv Hpos Hle)
      as [->|(mt & et & -> & _ & Het & HEt)]; [by left|].
    by apply add_one_ge_two. }
  destruct (Z.eq_dec z 0) as [->|Hne].
  - left. destruct Hd as [->|(m' & e' & -> & _)]; reflexivity.
  - destruct (of_int_shape z ltac:(lia)) as (m1 & e1 & -> & Hd1 & He1 & Hm1).
    destruct Hd as [->|(m2 & e2 & -> & Hd2 & He2)]; [by left|].
    right. by apply div_below_2_63.
Qed.

End IntersectionFloat.

Section IntersectionOne.

(** An even mantissa one bit too long loses its last bit exactly. *)
Lemma binary_round_aux_even (s : bool) (m : positive) (e : Z) :
  fexp prec emax (Z.pos (digits2_pos m) + (e + 1)) = e + 1 ->
  e + 1 <= 971 ->
  binary_round_aux prec emax s (Z.pos m~0) e loc_Exact
  = S754_finite s m (e + 1).
Proof.
  intros Hc He. unfold binary_round_aux, shr_fexp.
  cbn [Zdigits2 digits2_pos]. rewrite Pos2Z.inj_succ.
  replace (Z.succ (Z.pos (digits2_pos m)) + e)
    with (Z.pos (digits2_pos m) + (e + 1)) by lia.
  rewrite Hc. replace (e + 1 - e) with 1 by lia.
  cbn [shr shr_record_of_loc SpecFloat.iter_pos shr_1 shr_m
       loc_of_shr_record round_nearest_even Zdigits2 orb].
  rewrite Hc, Z.sub_diag. cbn [shr shr_record_of_loc shr_m].
  destruct (Z.leb_spec (e + 1) (emax - prec)) as [|Hgt]; [reflexivity|].
  unfold emax, prec in Hgt. lia.
Qed.

(** Dividing a normal float by 2.0 lowers its exponent by one. *)
Lemma div_two (m : positive) (e : Z) :
  Z.pos (digits2_pos m) = 53 -> -1000 <= e <= 971 ->
  div (S754_finite false m e) two = S754_finite false m (e - 1).
Proof.
  intros Hd He. unfold div, SFdiv, two.
  destruct (SFdiv_core_binary_spec m 4503599627370496 e (-51))
    as [l [Hcore Hexact]].
  cbv zeta in Hcore, Hexact.
  change (Z.pos (digits2_pos 4503599627370496)) with 53 in Hcore, Hexact.
  rewrite Hd in Hcore, Hexact.
  pose proof (fexp_eq (53 + e - (53 + -51))) as Hf.
  assert (He' : Z.min (fexp prec emax (53 + e - (53 + -51))) (e - -51) = e - 2)
    by lia.
  rewrite He' in Hcore, Hexact.
  replace (e - -51 - (e - 2)) with 53 in Hcore, Hexact by lia.
  assert (Hq : Z.pos m * 2 ^ 53 = Z.pos m~0 * Z.pos 4503599627370496).
  { rewrite (Pos2Z.inj_xO m).
    change (Z.pos 4503599627370496) with (2 ^ 52).
    change (2 ^ 53) with (2 * 2 ^ 52). lia. }
  rewrite Hq in Hcore, Hexact.
  rewrite Z.div_mul in Hcore by discriminate.
  rewrite Z.mod_mul in Hexact by discriminate.
  rewrite Hcore, (Hexact eq_refl). cbn [xorb].
  replace (e - 1) with (e - 2 + 1) by lia.
  apply binary_round_aux_even; [|lia].
  rewrite Hd, fexp_eq. lia.
Qed.

(** Twice a 53-bit integer converts to float64 without rounding. *)
Lemma of_int_double_large (n : positive) :
  Z.pos (digits2_pos n) = 53 ->
  of_int (Z.pos n~0) = S754_finite false n 1.
Proof.
  intros Hd. unfold of_int, binary_normalize, binary_round.
  cbn [digits2_pos]. rewrite Pos2Z.inj_succ, Hd.
  change (shl_align n~0 0 (fexp prec emax (Z.succ 53 + 0))) with ((n~0)%positive, 0).
  apply (binary_round_aux_even false n 0); [|lia].
  rewrite Hd. reflexivity.
Qed.

Lemma Qfloor_to_Q_scaled (m : positive) (n c : Z) :
  0 <= n -> 0 < c -> Z.pos m = n * 2 ^ c ->
  Qfloor (to_Q (S754_finite false m (- c))) = n.
Proof.
  intros Hn Hc Hm. unfold to_Q. cbn [cond_Zopp].
  destruct (Z.leb_spec 0 (- c)); [lia|].
  assert (Hp : 0 < 2 ^ c) by (apply Z.pow_pos_nonneg; lia).
  unfold Qfloor. rewrite Z.opp_involutive, Z2Pos.id by lia.
  rewrite Hm. apply Z.div_mul. lia.
Qed.

(** The floor of a positive float below 2^63 is a non-negative [int]. *)
Lemma Qfloor_to_Q_range (m : positive) (e : Z) :
  Z.pos (digits2_pos m) <= 53 ->
  Z.pos (digits2_pos m) + e <= 63 ->
  0 <= Qfloor (to_Q (S754_finite false m e)) < 2 ^ 63.
Proof.
  intros Hd HE. destruct (digits2_pos_bounds m) as [_ Hhi].
  unfold to_Q. cbn [cond_Zopp].
  destruct (Z.leb_spec 0 e) as [He|He].
  - rewrite Qfloor_Z.
    pose proof (Z.pow_pos_nonneg 2 e ltac:(lia) He).
    assert (2 ^ (Z.pos (digits2_pos m) + e) <= 2 ^ 63)
      by (apply Z.pow_le_mono_r; lia).
    rewrite Z.pow_add_r in * by lia. nia.
  - assert (Hp : 0 < 2 ^ (- e)) by (apply Z.pow_pos_nonneg; lia).
    unfold Qfloor. rewrite Z2Pos.id by lia.
    assert (0 <= Z.pos m / 2 ^ (- e)) by (apply Z.div_pos; lia).
    assert (Z.pos m / 2 ^ (- e) <= Z.pos m)
      by (apply Z.div_le_upper_bound; nia).
    assert (2 ^ Z.pos (digits2_pos m) <= 2 ^ 53)
      by (apply Z.pow_le_mono_r; lia).
    lia.
Qed.

End IntersectionOne.

(** ** [Intersection] *)

(** C2: with similarity zero (of either sign) [Intersection] returns
    exactly 0 for all sizes; the function is total, so this is a normal
    return. *)
Theorem Intersection_zero_similarity (s : bool) (n m : Z) :
  Intersection (S754_zero s) n m = 0.
Proof. reflexivity. Qed.

(** C10: [Intersection] is symmetric in its two size arguments. *)
Theorem Intersection_sizes_symmetric (js : Float64.float64) (n m : Z) :
  Intersection js n m = Intersection js m n.
Proof.
  unfold Intersection, int_add. by rewrite (Z.add_comm n m).
Qed.

(** C4, as the claim states it, fails above 2^53, where [float64(n+n)]
    has to round: at [n = 2^53 + 1] the result is [2^53]. *)
Lemma Intersection_one_rounds_large_size :
  0 <= 2 ^ 53 + 1
  /\ Intersection one (2 ^ 53 + 1) (2 ^ 53 + 1) = 2 ^ 53
  /\ Intersection one (2 ^ 53 + 1) (2 ^ 53 + 1) <> 2 ^ 53 + 1.
Proof.
  split; [lia|]. split; [vm_compute; reflexivity|].
  intros H. vm_compute in H. discriminate H.
Qed.

(** C4 (amended): for every size [n] with [0 <= n <= 2^53],
    [Intersection(1.0, n, n)] returns exactly [n]; in particular
    [Intersection(1.0, 5, 5) = 5]. *)
Theorem Intersection_one_same_size (n : Z) :
  0 <= n <= 2 ^ 53 -> Intersection one n n = n.
Proof.
  intros [Hn Hle].
  rewrite Intersection_positive by reflexivity.
  unfold int_add. rewrite int64_small by lia.
  change (add (div one one) one) with two.
  destruct (Z.eq_dec n 0) as [->|Hn0]; [reflexivity|].
  destruct (Z.eq_dec n (2 ^ 53)) as [->|Hn53]; [vm_compute; reflexivity|].
  destruct (Z_lt_le_dec n (2 ^ 52)) as [Hsmall|Hbig].
  - (* 2n < 2^53: the conversion pads the mantissa *)
    destruct (of_int_small (n + n) ltac:(lia)) as (M & -> & HM & HdM).
    pose proof (Zdigits2_le (n + n) 53 ltac:(lia) ltac:(lia) ltac:(lia)) as Hd.
    pose proof (Zdigits2_pos (n + n) ltac:(lia)) as Hd0.
    rewrite div_two by lia.
    rewrite to_int_Floor_nonneg by lia.
    replace (Zdigits2 (n + n) - 53 - 1) with (- (54 - Zdigits2 (n + n))) by lia.
    apply Qfloor_to_Q_scaled; [lia | lia |].
    rewrite HM.
    replace (54 - Zdigits2 (n + n)) with (Z.succ (53 - Zdigits2 (n + n))) by lia.
    rewrite Z.pow_succ_r by lia. lia.
  - (* 2^53 <= 2n < 2^54: the conversion drops a zero bit *)
    destruct n as [|p|p]; try lia.
    assert (Hdp : Z.pos (digits2_pos p) = 53).
    { change (Zdigits2 (Z.pos p) = 53). apply Zdigits2_unique; lia. }
    change (Z.pos p + Z.pos p) with (Z.pos (p + p)).
    rewrite Pos.add_diag, (of_int_double_large p Hdp).
    rewrite div_two by lia.
    rewrite to_int_Floor_nonneg by lia.
    change (1 - 1) with 0. unfold to_Q. cbn [cond_Zopp].
    change (0 <=? 0) with true. cbv iota.
    rewrite Qfloor_Z, Z.pow_0_r. lia.
Qed.

Lemma Intersection_one_same_size_witness :
  0 <= 5 <= 2 ^ 53 /\ Intersection one 5 5 = 5.
Proof.
  split; [lia | apply (Intersection_one_same_size 5); lia].
Defined.

(** C3, as the claim states it, fails.  Rounding: at the float64
    nearest to 1/3 and sizes 4 and 0 the code returns 1, while the
    formula over the rationals gives 0.  Overflow: at similarity 1.0 and
    sizes 2^62 and 2^62 the sum wraps and the code returns [- 2^62]
    instead of [2^62]. *)
Lemma Intersection_differs_from_exact_floor :
  (valid (S754_finite false 6004799503160661 (-54)) = true
   /\ ltb zero (S754_finite false 6004799503160661 (-54)) = true
   /\ leb (S754_finite false 6004799503160661 (-54)) one = true
   /\ Intersection (S754_finite false 6004799503160661 (-54)) 4 0 = 1
   /\ Intersection_spec (to_Q (S754_finite false 6004799503160661 (-54))) 4 0
      = 0)
  /\ (Intersection one (2 ^ 62) (2 ^ 62) = - 2 ^ 62
      /\ Intersection_spec (to_Q one) (2 ^ 62) (2 ^ 62) = 2 ^ 62).
Proof. repeat split; vm_compute; reflexivity. Qed.

(** C3 (amended): for every float64 [js] with [0 < js <= 1] and all
    non-negative sizes [n] and [m] whose sum fits an [int],
    [Intersection(js, n, m)] returns the floor of the float64 quotient
    [float64(n+m) / ((1.0/js) + 1)], every operation rounded to nearest
    even; the quotient is zero or a positive float below [2^63], so the
    conversion to [int] never leaves the range. *)
Theorem Intersection_float64_floor (js : float64) (n m : Z) :
  valid js = true -> ltb zero js = true -> leb js one = true ->
  0 <= n -> 0 <= m -> n + m <= MaxInt64 ->
  Intersection js n m
  = Qfloor (to_Q (div (of_int (n + m)) (add (div one js) one)))
  /\ 0 <= Intersection js n m < 2 ^ 63.
Proof.
  intros Hv Hpos Hle Hn Hm Hsum. unfold MaxInt64 in Hsum.
  rewrite Intersection_positive by exact Hpos.
  unfold int_add. rewrite int64_small by lia.
  destruct (quotient_shape js (n + m) Hv Hpos Hle ltac:(lia))
    as [->|(mq & eq & -> & Hd & HE)].
  - split; [reflexivity | vm_compute; split; congruence].
  - split; [by apply to_int_Floor_nonneg|].
    rewrite to_int_Floor_nonneg by assumption.
    apply Qfloor_to_Q_range; assumption.
Qed.

Lemma Intersection_float64_floor_witness :
  valid (S754_finite false 6004799503160661 (-54)) = true
  /\ ltb zero (S754_finite false 6004799503160661 (-54)) = true
  /\ leb (S754_finite false 6004799503160661 (-54)) one = true
  /\ 0 <= 4 /\ 0 <= 0 /\ 4 + 0 <= MaxInt64
  /\ Intersection (S754_finite false 6004799503160661 (-54)) 4 0
     = Qfloor (to_Q (div (of_int (4 + 0))
                         (add (div one (S754_finite false 6004799503160661 (-54)))
                              one)))
  /\ 0 <= Intersection (S754_finite false 6004799503160661 (-54)) 4 0 < 2 ^ 63.
Proof.
  do 3 (split; [vm_compute; reflexivity|]).
  do 2 (split; [lia|]).
  split; [unfold MaxInt64; lia|].
  apply (Intersection_float64_floor
           (S754_finite false 6004799503160661 (-54)) 4 0);
    try (vm_compute; reflexivity); try lia.
  unfold MaxInt64; lia.
Defined.

(** * Further properties of the package *)

(** ** The constants *)

Section Constants.

Lemma int64_range (z : Z) : - 2 ^ 63 <= int64 z < 2 ^ 63.
Proof.
  unfold int64. pose proof (Z.mod_pos_bound (z + 2 ^ 63) (2 ^ 64)). lia.
Qed.

End Constants.

(** X1: [MaxUint] is the sentinel [infinity], [MaxInt] is [2^63 - 1],
    and they bound every [uint] and [int] value; so the sentinel never
    wins a minimum against a hash value: [min(infinity, v) = v] for
    every [uint64] [v]. *)
Theorem infinity_is_greatest (z : Z) :
  MaxUint = infinity
  /\ MaxInt = 2 ^ 63 - 1
  /\ uint64 z <= MaxUint
  /\ int64 z <= MaxInt
  /\ Z.min infinity (uint64 z) = uint64 z.
Proof.
  assert (HU : MaxUint = 2 ^ 64 - 1) by reflexivity.
  assert (HI : MaxInt = 2 ^ 63 - 1) by reflexivity.
  pose proof (uint64_range z). pose proof (int64_range z).
  unfold infinity, MaxUint64. repeat split; lia.
Qed.

(** ** [defaultSignature]: the edge cases *)

(** X2: [defaultSignature] panics exactly when [make] refuses the
    size: a negative size, or one above [2^45] (more than [maxAlloc]
    bytes); on every other size, zero included, it returns that many
    sentinels. *)
Theorem defaultSignature_cases (size : Z) :
  defaultSignature size
  = if (size <? 0) || (2 ^ 45 <? size) then Panic MakeSliceLen
    else Ok (replicate (Z.to_nat size) (2 ^ 64 - 1)).
Proof.
  destruct (Z.ltb_spec size 0) as [Hneg|Hpos]; cbn [orb].
  - unfold defaultSignature, make.
    destruct (Z.ltb_spec size 0); [reflexivity | lia].
  - destruct (Z.ltb_spec (2 ^ 45) size) as [Hbig|Hfit].
    + by apply defaultSignature_too_large.
    + by apply defaultSignature_replicate.
Qed.

(** ** [toBytes]: what it encodes, when it panics *)

Section ToBytes.

Lemma int64_uint64 (n : Z) : - 2 ^ 63 <= n < 2 ^ 63 -> int64 (uint64 n) = n.
Proof.
  intros Hn. unfold int64, uint64.
  destruct (Z_lt_le_dec n 0) as [Hneg|Hpos].
  - rewrite <- (Z.mod_unique n (2 ^ 64) (-1) (n + 2 ^ 64)) by lia.
    rewrite <- (Z.mod_unique (n + 2 ^ 64 + 2 ^ 63) (2 ^ 64) 1 (n + 2 ^ 63)) by lia.
    lia.
  - rewrite (Z.mod_small n) by lia.
    rewrite Z.mod_small by lia. lia.
Qed.

End ToBytes.

(** X3: [toBytes] panics exactly on the six integer kinds that a case
    lists but whose type assertion fails ([uint], [uint16], [uint32],
    [int], [int16], [int32]); on every other value, of any dynamic type,
    it returns normally. *)
Theorem toBytes_panics_iff (x : value) :
  (exists p, toBytes x = Panic p)
  <-> exists k n, x = VInteger k n
                  /\ (k = Uint \/ k = Uint16 \/ k = Uint32
                      \/ k = Int \/ k = Int16 \/ k = Int32).
Proof.
  split.
  - intros [p Hp]. destruct x as [b|s|k n|]; try discriminate Hp.
    exists k, n. split; [reflexivity|].
    destruct k; try discriminate Hp; tauto.
  - intros (k & n & -> & Hk).
    exists TypeAssertion.
    destruct Hk as [->|[->|[->|[->|[->| ->]]]]]; reflexivity.
Qed.

(** X4: on a [uint64] the result is an eight-byte little-endian
    encoding that reads back to the value, every byte below 256; hence
    two different [uint64] values never give the same bytes. *)
Theorem toBytes_uint64_faithful (n : Z) :
  0 <= n < 2 ^ 64 ->
  (exists b, toBytes (VInteger Uint64 n) = Ok b
             /\ length b = 8%nat
             /\ Forall (fun c => 0 <= c < 256) b
             /\ Binary.Uint64 b = Some n)
  /\ (forall n', 0 <= n' < 2 ^ 64 ->
        toBytes (VInteger Uint64 n') = toBytes (VInteger Uint64 n) -> n' = n).
Proof.
  intros Hn. split.
  - destruct (toBytes_uint64 n Hn) as (b & Hb & Hlen & Hdec).
    exists b. repeat split; try assumption.
    rewrite toBytes_uint64_bytes in Hb. injection Hb as <-.
    repeat (apply Forall_cons; split; [apply byte_range|]). apply Forall_nil.
    done.
  - intros n' Hn' Heq.
    destruct (toBytes_uint64 n Hn) as (b & Hb & _ & Hdec).
    destruct (toBytes_uint64 n' Hn') as (b' & Hb' & _ & Hdec').
    rewrite Hb, Hb' in Heq. injection Heq as ->. congruence.
Qed.

Lemma toBytes_uint64_faithful_witness :
  0 <= 258 < 2 ^ 64
  /\ (exists b, toBytes (VInteger Uint64 258) = Ok b
                /\ length b = 8%nat
                /\ Forall (fun c => 0 <= c < 256) b
                /\ Binary.Uint64 b = Some 258)
  /\ (forall n', 0 <= n' < 2 ^ 64 ->
        toBytes (VInteger Uint64 n') = toBytes (VInteger Uint64 258)
        -> n' = 258).
Proof.
  split; [lia | apply (toBytes_uint64_faithful 258); lia].
Defined.

(** X5: an [int64] is encoded through its two's complement image, so it
    gives the same bytes as the [uint64] with the same bit pattern
    (a negative [n] collides with [n + 2^64]); reading the bytes back
    and converting to [int64] recovers [n]. *)
Theorem toBytes_int64_twos_complement (n : Z) :
  - 2 ^ 63 <= n < 2 ^ 63 ->
  toBytes (VInteger Int64 n) = toBytes (VInteger Uint64 (uint64 n))
  /\ exists b v, toBytes (VInteger Int64 n) = Ok b
                 /\ length b = 8%nat
                 /\ Binary.Uint64 b = Some v
                 /\ int64 v = n.
Proof.
  intros Hn. split; [reflexivity|].
  destruct (toBytes_int64 n) as (b & Hb & Hlen & Hdec).
  exists b, (uint64 n). repeat split; try assumption.
  by apply int64_uint64.
Qed.

Lemma toBytes_int64_twos_complement_witness :
  - 2 ^ 63 <= -2 < 2 ^ 63
  /\ toBytes (VInteger Int64 (-2)) = toBytes (VInteger Uint64 (uint64 (-2)))
  /\ exists b v, toBytes (VInteger Int64 (-2)) = Ok b
                 /\ length b = 8%nat
                 /\ Binary.Uint64 b = Some v
                 /\ int64 v = -2.
Proof.
  split; [lia | apply (toBytes_int64_twos_complement (-2)); lia].
Defined.

(** X6: a value whose dynamic type no case lists ([uint8], [int8], or
    any non-integer type other than [[]byte] and [string]) falls through
    the switch: the result is the untouched buffer of eight zero bytes,
    whatever the value, the same bytes as for [uint64(0)]. *)
Theorem toBytes_unlisted_is_zero (x : value) :
  (x = VOther \/ exists n, x = VInteger Uint8 n \/ x = VInteger Int8 n) ->
  toBytes x = Ok [0; 0; 0; 0; 0; 0; 0; 0]
  /\ toBytes x = toBytes (VInteger Uint64 0).
Proof.
  intros [->|[n [->| ->]]]; split; reflexivity.
Qed.

Lemma toBytes_unlisted_is_zero_witness :
  (VInteger Uint8 5 = VOther
   \/ exists n, VInteger Uint8 5 = VInteger Uint8 n
                \/ VInteger Uint8 5 = VInteger Int8 n)
  /\ toBytes (VInteger Uint8 5) = Ok [0; 0; 0; 0; 0; 0; 0; 0]
  /\ toBytes (VInteger Uint8 5) = toBytes (VInteger Uint64 0).
Proof.
  assert (H : VInteger Uint8 5 = VOther
              \/ exists n, VInteger Uint8 5 = VInteger Uint8 n
                           \/ VInteger Uint8 5 = VInteger Int8 n)
    by (right; exists 5; left; reflexivity).
  split; [exact H | apply (toBytes_unlisted_is_zero (VInteger Uint8 5) H)].
Defined.

(** ** [stringIntToByte]: which strings are read as numbers *)

Section Numerals.

Import Strconv.

Lemma byte_small (z : Z) : 0 <= z < 256 -> byte z = z.
Proof. intros Hz. rewrite byte_mod. apply Z.mod_small. lia. Qed.

Lemma uint64_small (z : Z) : 0 <= z < 2 ^ 64 -> uint64 z = z.
Proof. intros Hz. unfold uint64. apply Z.mod_small. lia. Qed.

(** Setting bit 5 of a digit or a lower-case letter changes nothing. *)
Lemma lower_digit_char (d : Z) :
  0 <= d < 36 -> lower (digit_char d) = digit_char d.
Proof.
  intros Hd. rewrite <- (Z2Nat.id d) by lia.
  assert (Hn : (Z.to_nat d < 36)%nat) by lia.
  revert Hn. generalize (Z.to_nat d). intros k Hk.
  do 36 (destruct k as [|k]; [reflexivity|]). lia.
Qed.

Lemma digit_char_range (d : Z) :
  0 <= d < 36 ->
  (d < 10 /\ digit_char d = 48 + d) \/ (10 <= d /\ digit_char d = 87 + d).
Proof.
  intros Hd. unfold digit_char. change (ch "0") with 48. change (ch "a") with 97.
  destruct (Z.ltb_spec d 10); [left | right]; lia.
Qed.

(** One turn of the digit loop on the character of the digit [d]. *)
Lemma digits_loop_digit (base : Z) (base0 : bool) (cutoff maxVal : Z)
  (d : Z) (s : list Z) (n : Z) (u : bool) :
  0 <= d < 36 ->
  digits_loop base base0 cutoff maxVal (digit_char d :: s) n u
  = if byte base <=? d then inr (0, ErrSyntax)
    else if cutoff <=? n then inr (maxVal, ErrRange)
    else if (uint64 (uint64 (n * uint64 base) + uint64 d)
             <? uint64 (n * uint64 base))
            || (maxVal <? uint64 (uint64 (n * uint64 base) + uint64 d))
         then inr (maxVal, ErrRange)
         else digits_loop base base0 cutoff maxVal s
                (uint64 (uint64 (n * uint64 base) + uint64 d)) u.
Proof.
  intros Hd. cbn [digits_loop].
  rewrite (lower_digit_char d Hd).
  change (ch "_") with 95. change (ch "0") with 48.
  change (ch "9") with 57. change (ch "a") with 97. change (ch "z") with 122.
  destruct (digit_char_range d Hd) as [[Hlt ->]|[Hge ->]].
  - destruct (Z.eqb_spec (48 + d) 95); [lia|]. cbn [andb].
    destruct (Z.leb_spec 48 (48 + d)); [|lia].
    destruct (Z.leb_spec (48 + d) 57); [|lia]. cbn [andb].
    replace (48 + d - 48) with d by lia.
    rewrite (byte_small d) by lia. reflexivity.
  - destruct (Z.eqb_spec (87 + d) 95); [lia|]. cbn [andb].
    destruct (Z.leb_spec 48 (87 + d)); [|lia].
    destruct (Z.leb_spec (87 + d) 57); [lia|]. cbn [andb].
    destruct (Z.leb_spec 97 (87 + d)); [|lia].
    destruct (Z.leb_spec (87 + d) 122); [|lia]. cbn [andb].
    replace (87 + d - 97 + 10) with d by lia.
    rewrite (byte_small d) by lia. reflexivity.
Qed.

Lemma foldl_value_ge (base : Z) (ds : list Z) :
  1 <= base -> Forall (fun d => 0 <= d) ds ->
  forall acc, 0 <= acc -> acc <= foldl (fun a d => a * base + d) acc ds.
Proof.
  intros Hb Hds. induction Hds as [|d ds Hd _ IH]; intros acc Hacc; simpl.
  - lia.
  - transitivity (acc * base + d); [nia|]. apply IH. nia.
Qed.

(** The digit loop computes the value of the numeral, and reports a
    range error exactly when that value does not fit 64 bits. *)
Lemma digits_loop_value (base : Z) (base0 : bool) (ds : list Z) :
  2 <= base <= 36 ->
  Forall (fun d => 0 <= d < base) ds ->
  forall (acc : Z) (u : bool),
    0 <= acc < 2 ^ 64 ->
    digits_loop base base0 (MaxUint64 / base + 1) MaxUint64
      (map digit_char ds) acc u
    = if foldl (fun a d => a * base + d) acc ds <? 2 ^ 64
      then inl (foldl (fun a d => a * base + d) acc ds, u)
      else inr (MaxUint64, ErrRange).
Proof.
  intros Hb Hds. induction Hds as [|d ds Hd Hds IH]; intros acc u Hacc.
  - simpl. destruct (Z.ltb_spec acc (2 ^ 64)); [reflexivity | lia].
  - cbn [map foldl]. rewrite digits_loop_digit by lia.
    rewrite (byte_small base) by lia.
    destruct (Z.leb_spec base d); [lia|].
    assert (Hnonneg : Forall (fun d => 0 <= d) ds)
      by (eapply Forall_impl; [exact Hds | simpl; intros; lia]).
    pose proof (foldl_value_ge base ds ltac:(lia) Hnonneg (acc * base + d)
                  ltac:(nia)) as Hge.
    assert (Hcut : MaxUint64 / base + 1 <= acc <-> 2 ^ 64 <= acc * base).
    { unfold MaxUint64. split; intros Hc.
      - assert (2 ^ 64 - 1 < base * (MaxUint64 / base + 1)).
        { unfold MaxUint64.
          pose proof (Z.mul_succ_div_gt (2 ^ 64 - 1) base ltac:(lia)). lia. }
        unfold MaxUint64 in *. nia.
      - assert (base * ((2 ^ 64 - 1) / base) <= 2 ^ 64 - 1)
          by (apply Z.mul_div_le; lia).
        nia. }
    destruct (Z.leb_spec (MaxUint64 / base + 1) acc) as [Hc|Hc].
    + apply Hcut in Hc.
      destruct (Z.ltb_spec (foldl (fun a d => a * base + d) (acc * base + d) ds)
                  (2 ^ 64)); [lia | reflexivity].
    + assert (Hmul : acc * base < 2 ^ 64) by (apply Z.nle_gt; rewrite <- Hcut; lia).
      rewrite (uint64_small base) by lia.
      rewrite (uint64_small (acc * base)) by nia.
      rewrite (uint64_small d) by lia.
      destruct (Z_lt_le_dec (acc * base + d) (2 ^ 64)) as [Hfit|Hover].
      * rewrite (uint64_small (acc * base + d)) by nia.
        destruct (Z.ltb_spec (acc * base + d) (acc * base)); [lia|].
        destruct (Z.ltb_spec MaxUint64 (acc * base + d));
          [unfold MaxUint64 in *; lia|].
        cbn [orb]. apply IH. nia.
      * assert (Hw : uint64 (acc * base + d) = acc * base + d - 2 ^ 64).
        { unfold uint64. symmetry.
          apply (Z.mod_unique _ _ 1); lia. }
        rewrite Hw.
        destruct (Z.ltb_spec (acc * base + d - 2 ^ 64) (acc * base)); [|lia].
        cbn [orb].
        destruct (Z.ltb_spec (foldl (fun a d => a * base + d) (acc * base + d) ds)
                    (2 ^ 64)); [lia | reflexivity].
Qed.

End Numerals.

Section ParseUintBase0.

Import Strconv.

(** [ParseUint(s, 0, 64)] on a non-empty string: the prefix decides the
    base, the digit loop runs on the rest. *)
Lemma ParseUint_base0 (c0 : Z) (s : list Z) :
  ParseUint (c0 :: s) 0 64
  = match digits_loop (fst (base_prefix (c0 :: s))) true
            (MaxUint64 / fst (base_prefix (c0 :: s)) + 1) MaxUint64
            (snd (base_prefix (c0 :: s))) 0 false with
    | inl (n, underscores) =>
        if underscores && negb (underscoreOK (c0 :: s))
        then (0, Some ErrSyntax)
        else (n, None)
    | inr (n, e) => (n, Some e)
    end.
Proof.
  unfold ParseUint, base_prefix. cbv zeta.
  change ((2 <=? 0) && (0 <=? 36)) with false. cbv iota.
  change (0 =? 0) with true. cbv iota.
  change ((64 <? 0) || (64 <? 64)) with false. cbv iota.
  change (uint64 (Z.shiftl 1 (if 64 =? 0 then 64 else 64) - 1)) with MaxUint64.
  destruct (c0 =? ch "0"); [|reflexivity].
  destruct s as [|c1 [|c2 r]]; try reflexivity.
  destruct (lower c1 =? ch "b"); [reflexivity|].
  destruct (lower c1 =? ch "o"); [reflexivity|].
  destruct (lower c1 =? ch "x"); reflexivity.
Qed.

(** A numeral that the loop reads to the end, without underscores. *)
Lemma ParseUint_numeral (c0 : Z) (s : list Z) (base : Z) (ds : list Z) :
  base_prefix (c0 :: s) = (base, map digit_char ds) ->
  2 <= base <= 36 ->
  Forall (fun d => 0 <= d < base) ds ->
  ParseUint (c0 :: s) 0 64
  = if digits_value base ds <? 2 ^ 64
    then (digits_value base ds, None)
    else (MaxUint64, Some ErrRange).
Proof.
  intros Hp Hb Hds. rewrite ParseUint_base0, Hp. cbn [fst snd].
  rewrite (digits_loop_value base true ds Hb Hds 0 false) by lia.
  fold (digits_value base ds).
  destruct (digits_value base ds <? 2 ^ 64); reflexivity.
Qed.

Lemma digit_char_zero (d : Z) : 0 <= d < 36 -> (digit_char d =? ch "0") = (d =? 0).
Proof.
  intros Hd. change (ch "0") with 48.
  destruct (digit_char_range d Hd) as [[? ->]|[? ->]].
  - destruct (Z.eqb_spec d 0); destruct (Z.eqb_spec (48 + d) 48);
      try reflexivity; lia.
  - destruct (Z.eqb_spec d 0); destruct (Z.eqb_spec (87 + d) 48);
      try reflexivity; lia.
Qed.

(** After a leading zero, a decimal digit is never taken for the letter
    of a base prefix. *)
Lemma base_prefix_leading_zero (ds : list Z) :
  Forall (fun d => 0 <= d < 10) ds ->
  base_prefix (map digit_char (0 :: ds)) = (8, map digit_char ds).
Proof.
  intros Hds. cbn [map]. unfold base_prefix.
  change (digit_char 0 =? ch "0") with true. cbv iota.
  destruct Hds as [|d1 ds Hd1 Hds]; [reflexivity|].
  cbn [map]. destruct (map digit_char ds) as [|c2 r]; [reflexivity|].
  rewrite (lower_digit_char d1) by lia.
  change (ch "b") with 98. change (ch "o") with 111. change (ch "x") with 120.
  destruct (digit_char_range d1 ltac:(lia)) as [[_ ->]|[? _]]; [|lia].
  destruct (Z.eqb_spec (48 + d1) 98); [lia|].
  destruct (Z.eqb_spec (48 + d1) 111); [lia|].
  destruct (Z.eqb_spec (48 + d1) 120); [lia|]. reflexivity.
Qed.

(** Once a character makes the loop stop, everything before it can only
    make it stop earlier. *)
Lemma digits_loop_error (base : Z) (base0 : bool) (cutoff maxVal : Z)
  (P : Z -> Prop) :
  (forall c s n u, P c ->
     exists v e, digits_loop base base0 cutoff maxVal (c :: s) n u = inr (v, e)) ->
  forall s, Exists P s ->
  forall n u, exists v e, digits_loop base base0 cutoff maxVal s n u = inr (v, e).
Proof.
  intros HP s Hs. induction Hs as [c s Hc|c s _ IH]; intros n u.
  - by apply HP.
  - cbn [digits_loop].
    destruct ((c =? ch "_") && base0); [apply IH|].
    destruct (if (ch "0" <=? c) && (c <=? ch "9")
              then Some (byte (c - ch "0"))
              else if (ch "a" <=? lower c) && (lower c <=? ch "z")
                   then Some (byte (lower c - ch "a" + 10))
                   else None) as [d|]; [|by eexists _, _].
    destruct (byte base <=? d); [by eexists _, _|].
    destruct (cutoff <=? n); [by eexists _, _|].
    destruct (_ || _); [by eexists _, _|]. apply IH.
Qed.

Lemma digits_loop_not_numeric (base : Z) (base0 : bool) (cutoff maxVal : Z)
  (c : Z) (s : list Z) (n : Z) (u : bool) :
  not_numeric c ->
  exists v e, digits_loop base base0 cutoff maxVal (c :: s) n u = inr (v, e).
Proof.
  intros (H95 & Hdig & Hlet). cbn [digits_loop].
  change (ch "_") with 95 in *. change (ch "0") with 48 in *.
  change (ch "9") with 57 in *. change (ch "a") with 97 in *.
  change (ch "z") with 122 in *.
  change (ch "_") with 95. change (ch "0") with 48.
  change (ch "9") with 57. change (ch "a") with 97. change (ch "z") with 122.
  destruct (Z.eqb_spec c 95); [lia|]. cbn [andb].
  destruct (Z.leb_spec 48 c); destruct (Z.leb_spec c 57); cbn [andb]; try lia;
    destruct (Z.leb_spec 97 (lower c)); destruct (Z.leb_spec (lower c) 122);
    cbn [andb]; try lia; by eexists _, _.
Qed.

Lemma base_prefix_not_numeric (s : list Z) :
  Exists not_numeric s -> Exists not_numeric (snd (base_prefix s)).
Proof.
  intros Hs. unfold base_prefix.
  destruct s as [|c0 rest0]; [exact Hs|].
  change (ch "0") with 48. change (ch "b") with 98.
  change (ch "o") with 111. change (ch "x") with 120.
  destruct (Z.eqb_spec c0 48) as [->|]; [|exact Hs].
  apply Exists_cons in Hs as [(_ & H0 & _)|Hs];
    [change (ch "0") with 48 in H0; change (ch "9") with 57 in H0; lia|].
  destruct rest0 as [|c1 [|c2 r]]; try exact Hs.
  assert (Hr : ~ not_numeric c1 -> Exists not_numeric (c2 :: r)).
  { intros Hc1. apply Exists_cons in Hs as [Hs|Hs]; [contradiction | exact Hs]. }
  destruct (Z.eqb_spec (lower c1) 98) as [E|];
    [apply Hr; intros (_ & _ & H);
     change (ch "a") with 97 in H; change (ch "z") with 122 in H; lia|].
  destruct (Z.eqb_spec (lower c1) 111) as [E|];
    [apply Hr; intros (_ & _ & H);
     change (ch "a") with 97 in H; change (ch "z") with 122 in H; lia|].
  destruct (Z.eqb_spec (lower c1) 120) as [E|];
    [apply Hr; intros (_ & _ & H);
     change (ch "a") with 97 in H; change (ch "z") with 122 in H; lia|].
  exact Hs.
Qed.

(** Any string with such a character is refused. *)
Lemma ParseUint_not_numeric (s : list Z) :
  Exists not_numeric s -> exists v e, ParseUint s 0 64 = (v, Some e).
Proof.
  intros Hs. destruct s as [|c0 s]; [by apply Exists_nil in Hs|].
  rewrite ParseUint_base0.
  set (b := fst (base_prefix (c0 :: s))).
  destruct (digits_loop_error b true (MaxUint64 / b + 1) MaxUint64 not_numeric)
    with (s := snd (base_prefix (c0 :: s))) (n := 0) (u := false)
    as (v & e & ->).
  - intros c s' n u Hc. by apply digits_loop_not_numeric.
  - by apply base_prefix_not_numeric.
  - by eexists _, _.
Qed.

Lemma bytes_of_string_range (s : string) :
  Forall (fun c => 0 <= c < 256) (bytes_of_string s).
Proof.
  unfold bytes_of_string. apply Forall_forall. intros c Hc.
  apply list_elem_of_fmap in Hc as (a & -> & _).
  unfold ch. pose proof (N_ascii_bounded a). lia.
Qed.

(** On bytes, bit 5 turns exactly the upper-case letters into
    lower-case ones. *)
Lemma lower_letter (c : Z) :
  0 <= c < 256 -> 97 <= lower c <= 122 ->
  65 <= c <= 90 \/ 97 <= c <= 122.
Proof.
  intros Hc Hl.
  assert (Hall : forallb (fun k : nat =>
                   implb ((97 <=? lower (Z.of_nat k))
                          && (lower (Z.of_nat k) <=? 122))
                         (((65 <=? Z.of_nat k) && (Z.of_nat k <=? 90))
                          || ((97 <=? Z.of_nat k) && (Z.of_nat k <=? 122))))
                 (seq 0 256) = true) by (vm_compute; reflexivity).
  rewrite forallb_forall in Hall.
  specialize (Hall (Z.to_nat c)). rewrite Z2Nat.id in Hall by lia.
  assert (Hin : In (Z.to_nat c) (seq 0 256)) by (apply in_seq; lia).
  specialize (Hall Hin).
  destruct (Z.leb_spec 97 (lower c)); [|lia].
  destruct (Z.leb_spec (lower c) 122); [|lia].
  cbn [andb implb] in Hall.
  destruct (Z.leb_spec 65 c); destruct (Z.leb_spec c 90);
    destruct (Z.leb_spec 97 c); destruct (Z.leb_spec c 122);
    cbn [andb orb] in Hall; try discriminate; lia.
Qed.

End ParseUintBase0.

(** X7: a decimal numeral without a leading zero is read in base 10:
    [stringIntToByte] returns the bytes [toBytes] gives for that
    [uint64], provided the value fits 64 bits; a numeral of [2^64] or
    more is a range error and comes back as its text. *)
Theorem stringIntToByte_decimal (s : string) (d0 : Z) (ds : list Z) :
  bytes_of_string s = map Strconv.digit_char (d0 :: ds) ->
  1 <= d0 <= 9 ->
  Forall (fun d => 0 <= d <= 9) ds ->
  stringIntToByte s
  = if Strconv.digits_value 10 (d0 :: ds) <? 2 ^ 64
    then toBytes (VInteger Uint64 (Strconv.digits_value 10 (d0 :: ds)))
    else Ok (bytes_of_string s).
Proof.
  intros Hs Hd0 Hds. unfold stringIntToByte. rewrite Hs at 1.
  cbn [map].
  rewrite (ParseUint_numeral _ _ 10 (d0 :: ds)).
  - destruct (Strconv.digits_value 10 (d0 :: ds) <? 2 ^ 64); reflexivity.
  - unfold Strconv.base_prefix.
    rewrite digit_char_zero by lia.
    destruct (Z.eqb_spec d0 0); [lia | reflexivity].
  - lia.
  - apply Forall_cons. split; [lia|].
    eapply Forall_impl; [exact Hds | simpl; intros; lia].
Qed.

Lemma stringIntToByte_decimal_witness :
  bytes_of_string "42" = map Strconv.digit_char [4; 2]
  /\ 1 <= 4 <= 9
  /\ Forall (fun d => 0 <= d <= 9) [2]
  /\ stringIntToByte "42"
     = if Strconv.digits_value 10 [4; 2] <? 2 ^ 64
       then toBytes (VInteger Uint64 (Strconv.digits_value 10 [4; 2]))
       else Ok (bytes_of_string "42").
Proof.
  assert (H2 : Forall (fun d => 0 <= d <= 9) [2])
    by (apply Forall_cons; split; [lia | apply Forall_nil; exact I]).
  split; [reflexivity|]. split; [lia|]. split; [exact H2|].
  apply (stringIntToByte_decimal "42" 4 [2]); [reflexivity | lia | exact H2].
Defined.

(** X8: a leading zero selects base 8: the digits after it, all below
    8, are read as an octal value (["0"] alone is 0), so such a string
    gives the bytes of that value, not of its decimal reading. *)
Theorem stringIntToByte_leading_zero_octal (s : string) (ds : list Z) :
  bytes_of_string s = map Strconv.digit_char (0 :: ds) ->
  Forall (fun d => 0 <= d <= 7) ds ->
  stringIntToByte s
  = if Strconv.digits_value 8 ds <? 2 ^ 64
    then toBytes (VInteger Uint64 (Strconv.digits_value 8 ds))
    else Ok (bytes_of_string s).
Proof.
  intros Hs Hds. unfold stringIntToByte. rewrite Hs at 1.
  change (map Strconv.digit_char (0 :: ds))
    with (Strconv.digit_char 0 :: map Strconv.digit_char ds).
  rewrite (ParseUint_numeral _ _ 8 ds).
  - destruct (Strconv.digits_value 8 ds <? 2 ^ 64); reflexivity.
  - apply (base_prefix_leading_zero ds).
    eapply Forall_impl; [exact Hds | simpl; intros; lia].
  - lia.
  - eapply Forall_impl; [exact Hds | simpl; intros; lia].
Qed.

Lemma stringIntToByte_leading_zero_octal_witness :
  bytes_of_string "017" = map Strconv.digit_char [0; 1; 7]
  /\ Forall (fun d => 0 <= d <= 7) [1; 7]
  /\ stringIntToByte "017"
     = if Strconv.digits_value 8 [1; 7] <? 2 ^ 64
       then toBytes (VInteger Uint64 (Strconv.digits_value 8 [1; 7]))
       else Ok (bytes_of_string "017").
Proof.
  assert (H : Forall (fun d => 0 <= d <= 7) [1; 7]).
  { apply Forall_cons; split; [lia|].
    apply Forall_cons; split; [lia | apply Forall_nil; exact I]. }
  split; [reflexivity|]. split; [exact H|].
  apply (stringIntToByte_leading_zero_octal "017" [1; 7]);
    [reflexivity | exact H].
Defined.

(** X9: after a leading zero a digit 8 or 9 is a syntax error in base
    8, so a zero-padded decimal numeral such as ["08"] or ["0190"] is
    not read as a number at all: it comes back as its text. *)
Theorem stringIntToByte_leading_zero_not_octal (s : string) (ds : list Z) :
  bytes_of_string s = map Strconv.digit_char (0 :: ds) ->
  Forall (fun d => 0 <= d <= 9) ds ->
  Exists (fun d => 8 <= d) ds ->
  stringIntToByte s = Ok (bytes_of_string s).
Proof.
  intros Hs Hds Hex. unfold stringIntToByte. rewrite Hs at 1.
  change (map Strconv.digit_char (0 :: ds))
    with (Strconv.digit_char 0 :: map Strconv.digit_char ds).
  rewrite ParseUint_base0.
  change (Strconv.digit_char 0 :: map Strconv.digit_char ds)
    with (map Strconv.digit_char (0 :: ds)).
  rewrite (base_prefix_leading_zero ds)
    by (eapply Forall_impl; [exact Hds | simpl; intros; lia]).
  cbn [fst snd].
  destruct (digits_loop_error 8 true (MaxUint64 / 8 + 1) MaxUint64
              (fun c => exists d, c = Strconv.digit_char d /\ 8 <= d < 36))
    with (s := map Strconv.digit_char ds) (n := 0) (u := false)
    as (v & e & ->).
  - intros c s' n u (d & -> & Hd).
    rewrite digits_loop_digit by lia.
    change (byte 8) with 8.
    destruct (Z.leb_spec 8 d); [by eexists _, _ | lia].
  - clear Hs. induction Hex as [d ds Hd|d ds _ IH].
    + apply Exists_cons. left. exists d. split; [reflexivity|].
      apply Forall_cons in Hds as [Hd9 _]. lia.
    + apply Exists_cons. right. apply IH.
      by apply Forall_cons in Hds as [_ Hds].
  - reflexivity.
Qed.

Lemma stringIntToByte_leading_zero_not_octal_witness :
  bytes_of_string "08" = map Strconv.digit_char [0; 8]
  /\ Forall (fun d => 0 <= d <= 9) [8]
  /\ Exists (fun d => 8 <= d) [8]
  /\ stringIntToByte "08" = Ok (bytes_of_string "08").
Proof.
  assert (H : Forall (fun d => 0 <= d <= 9) [8])
    by (apply Forall_cons; split; [lia | apply Forall_nil; exact I]).
  assert (H' : Exists (fun d => 8 <= d) [8])
    by (apply Exists_cons; left; lia).
  split; [reflexivity|]. split; [exact H|]. split; [exact H'|].
  apply (stringIntToByte_leading_zero_not_octal "08" [8]);
    [reflexivity | exact H | exact H'].
Defined.

(** X10: the prefix ["0x"] selects base 16: followed by at least one
    hexadecimal digit (lower case), the string is read as that value. *)
Theorem stringIntToByte_hex (s : string) (ds : list Z) :
  bytes_of_string s = ch "0" :: ch "x" :: map Strconv.digit_char ds ->
  ds <> [] ->
  Forall (fun d => 0 <= d <= 15) ds ->
  stringIntToByte s
  = if Strconv.digits_value 16 ds <? 2 ^ 64
    then toBytes (VInteger Uint64 (Strconv.digits_value 16 ds))
    else Ok (bytes_of_string s).
Proof.
  intros Hs Hne Hds. unfold stringIntToByte. rewrite Hs at 1.
  rewrite (ParseUint_numeral _ _ 16 ds).
  - destruct (Strconv.digits_value 16 ds <? 2 ^ 64); reflexivity.
  - destruct ds as [|d ds]; [done | reflexivity].
  - lia.
  - eapply Forall_impl; [exact Hds | simpl; intros; lia].
Qed.

Lemma stringIntToByte_hex_witness :
  bytes_of_string "0x1f" = ch "0" :: ch "x" :: map Strconv.digit_char [1; 15]
  /\ [1; 15] <> []
  /\ Forall (fun d => 0 <= d <= 15) [1; 15]
  /\ stringIntToByte "0x1f"
     = if Strconv.digits_value 16 [1; 15] <? 2 ^ 64
       then toBytes (VInteger Uint64 (Strconv.digits_value 16 [1; 15]))
       else Ok (bytes_of_string "0x1f").
Proof.
  assert (H : Forall (fun d => 0 <= d <= 15) [1; 15]).
  { apply Forall_cons; split; [lia|].
    apply Forall_cons; split; [lia | apply Forall_nil; exact I]. }
  split; [reflexivity|]. split; [discriminate|]. split; [exact H|].
  apply (stringIntToByte_hex "0x1f" [1; 15]);
    [reflexivity | discriminate | exact H].
Defined.

(** X11: a string with a byte that is neither a decimal digit, nor a
    letter, nor an underscore (a sign, a space, a point, ...) is never
    read as a number: it comes back as its text.  So the text of a
    negative integer never gives the bytes of that integer. *)
Theorem stringIntToByte_not_numeric (s : string) :
  Exists (fun c => c <> 95 /\ ~ (48 <= c <= 57)
                   /\ ~ (65 <= c <= 90) /\ ~ (97 <= c <= 122))
         (bytes_of_string s) ->
  stringIntToByte s = Ok (bytes_of_string s).
Proof.
  intros Hex. unfold stringIntToByte.
  destruct (ParseUint_not_numeric (bytes_of_string s)) as (v & e & ->);
    [|reflexivity].
  pose proof (bytes_of_string_range s) as Hr.
  induction Hex as [c l (H95 & Hd & Hu & Hl)|c l _ IH].
  - apply Exists_cons. left. apply Forall_cons in Hr as [Hc _].
    unfold Strconv.not_numeric.
    change (ch "_") with 95. change (ch "0") with 48.
    change (ch "9") with 57. change (ch "a") with 97. change (ch "z") with 122.
    repeat split; try assumption.
    intros Hlow. destruct (lower_letter c Hc Hlow); contradiction.
  - apply Exists_cons. right. apply IH. by apply Forall_cons in Hr as [_ Hr].
Qed.

Lemma stringIntToByte_not_numeric_witness :
  Exists (fun c => c <> 95 /\ ~ (48 <= c <= 57)
                   /\ ~ (65 <= c <= 90) /\ ~ (97 <= c <= 122))
         (bytes_of_string "-5")
  /\ stringIntToByte "-5" = Ok (bytes_of_string "-5").
Proof.
  assert (H : Exists (fun c => c <> 95 /\ ~ (48 <= c <= 57)
                               /\ ~ (65 <= c <= 90) /\ ~ (97 <= c <= 122))
                     (bytes_of_string "-5")).
  { apply Exists_cons. left. change (ch "-") with 45. lia. }
  split; [exact H | apply (stringIntToByte_not_numeric "-5" H)].
Defined.

(** ** [Intersection] at similarity 1.0 *)

(** X12: with similarity 1.0 and sizes whose sum is non-negative and
    below [2^53], the float64 computation loses nothing:
    [Intersection(1.0, n, m)] is exactly half the sum, rounded down.
    The estimate can therefore exceed the smaller of the two sizes. *)
Theorem Intersection_one_half (n m : Z) :
  0 <= n + m < 2 ^ 53 -> Intersection one n m = (n + m) / 2.
Proof.
  intros [Hlo Hhi].
  rewrite Intersection_positive by reflexivity.
  unfold int_add. rewrite int64_small by lia.
  change (add (div one one) one) with two.
  destruct (Z.eq_dec (n + m) 0) as [->|Hne]; [reflexivity|].
  destruct (of_int_small (n + m) ltac:(lia)) as (M & -> & HM & HdM).
  pose proof (Zdigits2_le (n + m) 53 ltac:(lia) ltac:(lia) ltac:(lia)) as Hd.
  pose proof (Zdigits2_pos (n + m) ltac:(lia)) as Hd0.
  rewrite div_two by lia.
  rewrite to_int_Floor_nonneg by lia.
  unfold to_Q. cbn [cond_Zopp].
  destruct (Z.leb_spec 0 (Zdigits2 (n + m) - 53 - 1)); [lia|].
  assert (Hp : 0 < 2 ^ (53 - Zdigits2 (n + m)))
    by (apply Z.pow_pos_nonneg; lia).
  replace (- (Zdigits2 (n + m) - 53 - 1))
    with (Z.succ (53 - Zdigits2 (n + m))) by lia.
  rewrite Z.pow_succ_r by lia.
  unfold Qfloor. rewrite Z2Pos.id by lia.
  rewrite HM. apply Z.div_mul_cancel_r; lia.
Qed.

Lemma Intersection_one_half_witness :
  0 <= 10 + 3 < 2 ^ 53 /\ Intersection one 10 3 = (10 + 3) / 2.
Proof.
  split; [lia | apply (Intersection_one_half 10 3); lia].
Defined.

(** ** [Intersection]: the estimate is at most half the total size *)

Section RoundingBelow.

Lemma Zdigits2_mono (a b : Z) : 0 <= a <= b -> Zdigits2 a <= Zdigits2 b.
Proof.
  intros [Ha Hab]. destruct (Z.eq_dec a 0) as [->|Hne].
  - apply Zdigits2_nonneg.
  - apply Zdigits2_ge; [lia|].
    destruct (Zdigits2_bounds a ltac:(lia)) as [Hlo _]. lia.
Qed.

(** Shifting out [k] zero bits of an exact mantissa stays exact. *)
Lemma iter_shr_1_exact (k : nat) (g : Z) :
  0 <= g ->
  Nat.iter k shr_1 {| shr_m := g * 2 ^ Z.of_nat k; shr_r := false;
                      shr_s := false |}
  = {| shr_m := g; shr_r := false; shr_s := false |}.
Proof.
  intros Hg. induction k as [|k IH].
  - simpl. f_equal. lia.
  - rewrite Nat.iter_succ_r.
    replace (g * 2 ^ Z.of_nat (S k)) with (2 * (g * 2 ^ Z.of_nat k))
      by (rewrite Nat2Z.inj_succ, Z.pow_succ_r by lia; lia).
    assert (Hy : 0 <= g * 2 ^ Z.of_nat k)
      by (pose proof (Z.pow_pos_nonneg 2 (Z.of_nat k)); nia).
    destruct (g * 2 ^ Z.of_nat k) as [|y|y] eqn:Ey; try lia.
    + exact IH.
    + exact IH.
Qed.

(** Rounding the exact value of a canonical float, written with extra
    zero bits, gives that float. *)
Lemma binary_round_aux_padded (s : bool) (g : positive) (ex eg : Z) :
  fexp prec emax (Z.pos (digits2_pos g) + eg) = eg ->
  eg <= 971 -> ex <= eg ->
  binary_round_aux prec emax s (Z.pos g * 2 ^ (eg - ex)) ex loc_Exact
  = S754_finite s g eg.
Proof.
  intros Hc Heg Hex.
  assert (Hd : Zdigits2 (Z.pos g * 2 ^ (eg - ex)) + ex
               = Z.pos (digits2_pos g) + eg).
  { rewrite Zdigits2_mul_pow2 by lia. cbn [Zdigits2]. lia. }
  assert (H1 : shr_fexp prec emax (Z.pos g * 2 ^ (eg - ex)) ex loc_Exact
               = ({| shr_m := Z.pos g; shr_r := false; shr_s := false |}, eg)).
  { unfold shr_fexp. rewrite Hd, Hc. cbn [shr_record_of_loc]. unfold shr.
    destruct (eg - ex) as [|k|k] eqn:Ek; try lia.
    - rewrite Z.pow_0_r, Z.mul_1_r. f_equal. lia.
    - rewrite iter_pos_nat.
      rewrite <- (positive_nat_Z k) at 1.
      rewrite iter_shr_1_exact by lia. f_equal. lia. }
  unfold binary_round_aux. rewrite H1.
  cbn [shr_m loc_of_shr_record round_nearest_even].
  unfold shr_fexp. cbn [Zdigits2]. rewrite Hc, Z.sub_diag.
  cbn [shr shr_record_of_loc shr_m].
  destruct (Z.leb_spec eg (emax - prec)) as [|Hgt]; [reflexivity|].
  unfold emax, prec in Hgt. lia.
Qed.

(** The mantissa of a rounded result, on the grid of the canonical
    exponent of the input: the truncated mantissa or its successor. *)
Lemma binary_round_aux_value (sx : bool) (mx ex : Z) (lx : location) :
  0 < mx ->
  ex <= fexp prec emax (Zdigits2 mx + ex) ->
  -1074 < Zdigits2 mx + ex <= 1022 ->
  exists (m : positive) (e : Z),
    binary_round_aux prec emax sx mx ex lx = S754_finite sx m e
    /\ fexp prec emax (Z.pos (digits2_pos m) + e) = e
    /\ fexp prec emax (Zdigits2 mx + ex) <= e
    /\ (Z.pos m * 2 ^ (e - fexp prec emax (Zdigits2 mx + ex))
        = mx / 2 ^ (fexp prec emax (Zdigits2 mx + ex) - ex)
        \/ Z.pos m * 2 ^ (e - fexp prec emax (Zdigits2 mx + ex))
           = mx / 2 ^ (fexp prec emax (Zdigits2 mx + ex) - ex) + 1).
Proof.
  intros Hmx Hk [HE HE'].
  set (E := Zdigits2 mx + ex) in *.
  unfold binary_round_aux.
  destruct (shr_fexp_spec mx ex lx ltac:(lia)) as [Hm' He'].
  destruct (shr_fexp prec emax mx ex lx) as [mrs' e'].
  cbn [fst snd] in Hm', He'. fold E in Hm', He'.
  rewrite Z.max_r in Hm', He' by lia.
  assert (He'E : e' = fexp prec emax E) by lia.
  pose proof (fexp_eq E) as HfE.
  assert (Hdm' : Zdigits2 (shr_m mrs') = E - e').
  { rewrite Hm', Zdigits2_div_pow2; unfold E in *; lia. }
  assert (Hm'pos : 0 < shr_m mrs').
  { destruct (Z_lt_le_dec 0 (shr_m mrs')) as [|Hle]; [assumption|].
    assert (Hz : shr_m mrs' = 0).
    { rewrite Hm'. rewrite Hm' in Hle.
      pose proof (Z.div_pos mx (2 ^ (fexp prec emax E - ex)) ltac:(lia)
                    ltac:(apply Z.pow_pos_nonneg; lia)). lia. }
    rewrite Hz in Hdm'. simpl in Hdm'. lia. }
  destruct (Zdigits2_bounds _ Hm'pos) as [Hlo Hhi]. rewrite Hdm' in Hlo, Hhi.
  set (m1 := round_nearest_even (shr_m mrs') (loc_of_shr_record mrs')).
  assert (Hm1 : m1 = shr_m mrs' \/ m1 = shr_m mrs' + 1)
    by apply round_nearest_even_cases.
  assert (Hm1pos : 0 < m1) by lia.
  destruct (shr_fexp_spec m1 e' loc_Exact ltac:(lia)) as [Hm'' He''].
  destruct (shr_fexp prec emax m1 e' loc_Exact) as [mrs'' e''].
  cbn [fst snd] in Hm'', He''.
  rewrite <- Hm'. rewrite <- He'E.
  destruct (Z_lt_le_dec m1 (2 ^ (E - e'))) as [Hsmall|Hbig].
  - (* no carry *)
    assert (Hd1 : Zdigits2 m1 = E - e') by (apply Zdigits2_unique; lia).
    rewrite Hd1 in Hm'', He''.
    replace (E - e' + e') with E in Hm'', He'' by lia.
    rewrite Z.max_l in Hm'', He'' by lia.
    rewrite Z.pow_0_r, Z.div_1_r in Hm''.
    rewrite Hm''. destruct m1 as [|m|m]; try lia.
    destruct (Z.leb_spec e'' (emax - prec)) as [Hle|Hgt];
      [|unfold emax, prec in Hgt; lia].
    exists m, e''. split; [reflexivity|].
    change (Z.pos (digits2_pos m)) with (Zdigits2 (Z.pos m)).
    rewrite Hd1. replace (E - e' + e'') with E by lia.
    replace (e'' - e') with 0 by lia. rewrite Z.pow_0_r.
    repeat split; try lia.
  - (* the mantissa rounds up to a power of two *)
    assert (Hm1eq : m1 = 2 ^ (E - e')) by lia.
    assert (Hd1 : Zdigits2 m1 = E - e' + 1)
      by (rewrite Hm1eq; apply Zdigits2_pow2; lia).
    rewrite Hd1 in Hm'', He''.
    replace (E - e' + 1 + e') with (E + 1) in Hm'', He'' by lia.
    pose proof (fexp_eq (E + 1)) as HfE1.
    set (k2 := Z.max 0 (fexp prec emax (E + 1) - e')) in *.
    assert (Hk2 : k2 = 0 \/ k2 = 1) by lia.
    assert (Hm''eq : shr_m mrs'' = 2 ^ (E - e' - k2)).
    { rewrite Hm'', Hm1eq.
      replace (E - e') with ((E - e' - k2) + k2) at 1 by lia.
      rewrite Z.pow_add_r by lia.
      apply Z.div_mul. pose proof (Z.pow_pos_nonneg 2 k2). lia. }
    assert (Hd'' : Zdigits2 (shr_m mrs'') = E - e' - k2 + 1)
      by (rewrite Hm''eq; apply Zdigits2_pow2; lia).
    assert (0 < shr_m mrs'')
      by (rewrite Hm''eq; apply Z.pow_pos_nonneg; lia).
    destruct (shr_m mrs'') as [|m|m]; try lia.
    destruct (Z.leb_spec e'' (emax - prec)) as [Hle|Hgt];
      [|unfold emax, prec in Hgt; lia].
    exists m, e''. split; [reflexivity|].
    change (Z.pos (digits2_pos m)) with (Zdigits2 (Z.pos m)).
    rewrite Hd''. unfold emax, prec in Hle.
    replace (E - e' - k2 + 1 + e'') with (E + 1) by lia.
    repeat split; try lia.
    right. rewrite Hm''eq. replace (e'' - e') with k2 by lia.
    rewrite <- Z.pow_add_r by lia.
    replace (E - e' - k2 + k2) with (E - e') by lia. lia.
Qed.

(** Rounding never crosses a float: if the exact value is at most the
    canonical float [(g, eg)], so is the rounded result. *)
Lemma binary_round_aux_le (sx : bool) (mx ex : Z) (lx : location)
  (g : positive) (eg : Z) :
  0 < mx ->
  ex <= fexp prec emax (Zdigits2 mx + ex) ->
  -1074 < Zdigits2 mx + ex <= 1022 ->
  fexp prec emax (Z.pos (digits2_pos g) + eg) = eg ->
  eg <= 971 -> ex <= eg ->
  mx < Z.pos g * 2 ^ (eg - ex)
  \/ (mx = Z.pos g * 2 ^ (eg - ex) /\ lx = loc_Exact) ->
  exists (m : positive) (e : Z),
    binary_round_aux prec emax sx mx ex lx = S754_finite sx m e
    /\ Z.pos (digits2_pos m) <= 53
    /\ e <= eg
    /\ Z.pos m <= Z.pos g * 2 ^ (eg - e).
Proof.
  intros Hmx Hk HE Hc Heg Hex [Hlt|[-> ->]].
  - destruct (binary_round_aux_value sx mx ex lx Hmx Hk HE)
      as (m & e & -> & Hcm & Hfe & Hval).
    set (E := Zdigits2 mx + ex) in *.
    set (fE := fexp prec emax E) in *.
    assert (Hpg : 0 < 2 ^ (eg - ex)) by (apply Z.pow_pos_nonneg; lia).
    (* the binade of the input is at most that of [g] *)
    assert (HEg : E <= Z.pos (digits2_pos g) + eg).
    { pose proof (Zdigits2_mono mx (Z.pos g * 2 ^ (eg - ex)) ltac:(lia)) as Hd.
      rewrite Zdigits2_mul_pow2 in Hd by lia. cbn [Zdigits2] in Hd.
      unfold E. lia. }
    assert (HfEg : fE <= eg).
    { unfold fE. rewrite <- Hc. by apply fexp_mono. }
    (* on the grid [2^fE] the bound is an integer above the truncation *)
    assert (Hpk : 0 < 2 ^ (fE - ex)) by (apply Z.pow_pos_nonneg; lia).
    assert (Hgrid : Z.pos g * 2 ^ (eg - ex)
                    = Z.pos g * 2 ^ (eg - fE) * 2 ^ (fE - ex)).
    { rewrite <- Z.mul_assoc, <- Z.pow_add_r by lia. do 2 f_equal. lia. }
    assert (Htr : mx / 2 ^ (fE - ex) < Z.pos g * 2 ^ (eg - fE)).
    { apply Z.div_lt_upper_bound; [lia|]. rewrite Z.mul_comm, <- Hgrid. lia. }
    assert (Hm1 : Z.pos m * 2 ^ (e - fE) <= Z.pos g * 2 ^ (eg - fE)) by lia.
    (* hence the result is below [g] as well *)
    assert (Hpe : 0 < 2 ^ (e - fE)) by (apply Z.pow_pos_nonneg; lia).
    assert (Hpgf : 0 < 2 ^ (eg - fE)) by (apply Z.pow_pos_nonneg; lia).
    assert (Hdig : Z.pos (digits2_pos m) + e <= Z.pos (digits2_pos g) + eg).
    { pose proof (Zdigits2_mono (Z.pos m * 2 ^ (e - fE))
                    (Z.pos g * 2 ^ (eg - fE)) ltac:(lia)) as Hd.
      rewrite !Zdigits2_mul_pow2 in Hd by lia. cbn [Zdigits2] in Hd. lia. }
    assert (Hee : e <= eg).
    { rewrite <- Hcm, <- Hc. by apply fexp_mono. }
    exists m, e. split; [reflexivity|].
    split; [by apply (canonical_digits m e)|]. split; [exact Hee|].
    assert (Hsplit : Z.pos g * 2 ^ (eg - fE)
                     = Z.pos g * 2 ^ (eg - e) * 2 ^ (e - fE)).
    { rewrite <- Z.mul_assoc, <- Z.pow_add_r by lia. do 2 f_equal. lia. }
    rewrite Hsplit in Hm1.
    apply Z.mul_le_mono_pos_r in Hm1; [exact Hm1 | exact Hpe].
  - rewrite binary_round_aux_padded by assumption.
    exists g, eg. split; [reflexivity|].
    split; [by apply (canonical_digits g eg)|]. split; [lia|].
    rewrite Z.sub_diag, Z.pow_0_r. lia.
Qed.

End RoundingBelow.

Section AtMostHalf.

(** Dividing a normal float by a float of at least 2 gives at most half
    of it. *)
Lemma div_le_half (m1 m2 : positive) (e1 e2 : Z) :
  Z.pos (digits2_pos m1) = 53 -> -52 <= e1 <= 11 ->
  Z.pos (digits2_pos m2) = 53 -> -51 <= e2 <= 971 ->
  exists (m : positive) (e : Z),
    div (S754_finite false m1 e1) (S754_finite false m2 e2)
    = S754_finite false m e
    /\ Z.pos (digits2_pos m) <= 53
    /\ e <= e1 - 1
    /\ Z.pos m <= Z.pos m1 * 2 ^ (e1 - 1 - e).
Proof.
  intros Hd1 He1 Hd2 He2. unfold div, SFdiv.
  destruct (SFdiv_core_binary_spec m1 m2 e1 e2) as [l [Hcore Hexact]].
  cbv zeta in Hcore, Hexact. rewrite Hd1, Hd2 in Hcore, Hexact.
  pose proof (fexp_eq (53 + e1 - (53 + e2))) as Hf.
  set (e' := Z.min (fexp prec emax (53 + e1 - (53 + e2))) (e1 - e2)) in *.
  set (s := e1 - e2 - e') in *.
  set (q := Z.pos m1 * 2 ^ s / Z.pos m2) in *.
  rewrite Hcore. cbn [xorb].
  destruct (digits2_pos_bounds m1) as [Hlo1 Hhi1].
  destruct (digits2_pos_bounds m2) as [Hlo2 Hhi2].
  rewrite Hd1 in Hlo1, Hhi1. rewrite Hd2 in Hlo2, Hhi2.
  change (2 ^ (53 - 1)) with (2 ^ 52) in *.
  assert (Hs : 0 <= s) by (unfold s, e'; lia).
  destruct (Zdigits2_quotient (Z.pos m1) (Z.pos m2) s ltac:(lia) ltac:(lia) Hs
              ltac:(cbn [Zdigits2]; rewrite Hd1, Hd2; unfold s, e'; lia))
    as (Hq1 & Hq2 & Hq0).
  cbn [Zdigits2] in Hq1, Hq2. rewrite Hd1, Hd2 in Hq1, Hq2. fold q in Hq1, Hq2, Hq0.
  assert (Hc : 0 <= e1 - 1 - e') by (unfold e'; lia).
  assert (Hps : 0 < 2 ^ s) by (apply Z.pow_pos_nonneg; lia).
  assert (Hpc : 0 < 2 ^ (e1 - 1 - e')) by (apply Z.pow_pos_nonneg; lia).
  (* the divisor is at least 2: 2^s <= m2 * 2^(e1-1-e') *)
  assert (Htwo : 2 ^ s <= Z.pos m2 * 2 ^ (e1 - 1 - e')).
  { destruct (Z_le_gt_dec 1 e2) as [Hbig|Hsmall].
    - assert (2 ^ s <= 2 ^ (e1 - 1 - e'))
        by (apply Z.pow_le_mono_r; unfold s; lia).
      nia.
    - replace s with ((e1 - 1 - e') + (1 - e2)) by (unfold s; lia).
      rewrite Z.pow_add_r by lia.
      assert (2 ^ (1 - e2) <= 2 ^ 52) by (apply Z.pow_le_mono_r; lia).
      nia. }
  assert (Hqle : q <= Z.pos m1 * 2 ^ (e1 - 1 - e')).
  { apply Z.div_le_upper_bound; [lia|]. nia. }
  apply binary_round_aux_le.
  - exact Hq0.
  - transitivity (fexp prec emax (53 + e1 - (53 + e2))); [unfold e'; lia|].
    apply fexp_mono. unfold s in Hq1. lia.
  - unfold s in Hq1, Hq2. lia.
  - rewrite Hd1, fexp_eq. lia.
  - lia.
  - unfold e'. lia.
  - destruct (Z_lt_le_dec q (Z.pos m1 * 2 ^ (e1 - 1 - e'))) as [Hlt|Hge];
      [by left|].
    right. assert (Hqeq : q = Z.pos m1 * 2 ^ (e1 - 1 - e')) by lia.
    split; [exact Hqeq|]. apply Hexact. fold s.
    pose proof (Z.mul_div_le (Z.pos m1 * 2 ^ s) (Z.pos m2) ltac:(lia)) as Hdl.
    fold q in Hdl.
    assert (Hexactq : Z.pos m1 * 2 ^ s = Z.pos m2 * q) by (rewrite Hqeq in *; nia).
    rewrite Hexactq, Z.mul_comm. apply Z.mod_mul. lia.
Qed.

(** The integer part follows the order of floats. *)
Lemma Qfloor_to_Q_le (m g : positive) (e eg : Z) :
  e <= eg -> Z.pos m <= Z.pos g * 2 ^ (eg - e) ->
  Qfloor (to_Q (S754_finite false m e))
  <= Qfloor (to_Q (S754_finite false g eg)).
Proof.
  intros He Hm. unfold to_Q. cbn [cond_Zopp].
  assert (Hp : 0 < 2 ^ (eg - e)) by (apply Z.pow_pos_nonneg; lia).
  destruct (Z.leb_spec 0 e) as [He0|He0].
  - destruct (Z.leb_spec 0 eg); [|lia]. rewrite !Qfloor_Z.
    replace eg with ((eg - e) + e) at 1 by lia.
    rewrite Z.pow_add_r by lia.
    assert (0 < 2 ^ e) by (apply Z.pow_pos_nonneg; lia). nia.
  - assert (Hpe : 0 < 2 ^ (- e)) by (apply Z.pow_pos_nonneg; lia).
    unfold Qfloor at 1. rewrite Z2Pos.id by lia.
    destruct (Z.leb_spec 0 eg) as [Heg|Heg].
    + rewrite Qfloor_Z.
      apply Z.div_le_upper_bound; [lia|].
      replace (eg - e) with (eg + - e) in Hm by lia.
      rewrite Z.pow_add_r in Hm by lia. nia.
    + assert (Hpg : 0 < 2 ^ (- eg)) by (apply Z.pow_pos_nonneg; lia).
      unfold Qfloor. rewrite Z2Pos.id by lia.
      replace (- e) with (- eg + (eg - e)) by lia.
      rewrite Z.pow_add_r by lia.
      rewrite <- (Z.div_mul_cancel_r (Z.pos g) (2 ^ (- eg)) (2 ^ (eg - e)))
        by lia.
      apply Z.div_le_mono; nia.
Qed.

(** [(1.0 / js) + 1] for [0 < js <= 1]: infinite, or a normal float of
    at least 2. *)
Lemma denominator_shape (js : float64) :
  valid js = true -> ltb zero js = true -> leb js one = true ->
  add (div one js) one = S754_infinity false
  \/ exists (m' : positive) (e' : Z),
       add (div one js) one = S754_finite false m' e'
       /\ Z.pos (digits2_pos m') = 53 /\ -51 <= e' <= 971.
Proof.
  intros Hv Hpos Hle.
  destruct (div_one_ge_one js Hv Hpos Hle)
    as [->|(mt & et & -> & _ & Het & HEt)]; [by left|].
  by apply add_one_ge_two.
Qed.

End AtMostHalf.

(** X13: for every float64 similarity [0 < js <= 1] and sizes whose sum
    is non-negative and below [2^53], the estimate is never negative
    and never more than half the total size:
    [0 <= Intersection(js, n, m) <= (n + m) / 2]. *)
Theorem Intersection_at_most_half (js : float64) (n m : Z) :
  valid js = true -> ltb zero js = true -> leb js one = true ->
  0 <= n + m < 2 ^ 53 ->
  0 <= Intersection js n m <= (n + m) / 2.
Proof.
  intros Hv Hpos Hle [Hlo Hhi].
  rewrite Intersection_positive by exact Hpos.
  unfold int_add. rewrite int64_small by lia.
  assert (Hhalf : 0 <= (n + m) / 2) by (apply Z.div_pos; lia).
  destruct (Z.eq_dec (n + m) 0) as [Hz|Hne].
  - rewrite Hz in *.
    destruct (denominator_shape js Hv Hpos Hle) as [->|(m2 & e2 & -> & _)];
      vm_compute; split; congruence.
  - destruct (of_int_small (n + m) ltac:(lia)) as (M & -> & HM & HdM).
    pose proof (Zdigits2_le (n + m) 53 ltac:(lia) ltac:(lia) ltac:(lia)) as Hd.
    pose proof (Zdigits2_pos (n + m) ltac:(lia)) as Hd0.
    set (e1 := Zdigits2 (n + m) - 53) in *.
    destruct (denominator_shape js Hv Hpos Hle)
      as [->|(m2 & e2 & -> & Hd2 & He2)].
    + change (to_int (Floor (div (S754_finite false M e1)
                                 (S754_infinity false)))) with 0. lia.
    + destruct (div_le_half M m2 e1 e2 HdM ltac:(unfold e1; lia) Hd2 He2)
        as (mq & eq & -> & Hdq & Heq & Hmq).
      assert (Hpq : 0 < 2 ^ (e1 - 1 - eq)) by (apply Z.pow_pos_nonneg; lia).
      assert (HEq : Z.pos (digits2_pos mq) + eq <= 63).
      { pose proof (Zdigits2_mono (Z.pos mq) (Z.pos M * 2 ^ (e1 - 1 - eq))
                      ltac:(lia)) as Hdm.
        rewrite Zdigits2_mul_pow2 in Hdm by lia. cbn [Zdigits2] in Hdm.
        unfold e1 in *. lia. }
      rewrite to_int_Floor_nonneg by assumption.
      split; [by apply Qfloor_to_Q_range|].
      transitivity (Qfloor (to_Q (S754_finite false M (e1 - 1))));
        [by apply Qfloor_to_Q_le|].
      (* the integer part of half the converted sum *)
      unfold to_Q. cbn [cond_Zopp].
      destruct (Z.leb_spec 0 (e1 - 1)); [unfold e1 in *; lia|].
      assert (Hp : 0 < 2 ^ (53 - Zdigits2 (n + m)))
        by (apply Z.pow_pos_nonneg; lia).
      replace (- (e1 - 1)) with (Z.succ (53 - Zdigits2 (n + m)))
        by (unfold e1; lia).
      rewrite Z.pow_succ_r by lia.
      unfold Qfloor. rewrite Z2Pos.id by lia.
      rewrite HM, Z.div_mul_cancel_r by lia. lia.
Qed.

Lemma Intersection_at_most_half_witness :
  valid (S754_finite false 6004799503160661 (-54)) = true
  /\ ltb zero (S754_finite false 6004799503160661 (-54)) = true
  /\ leb (S754_finite false 6004799503160661 (-54)) one = true
  /\ 0 <= 7 + 5 < 2 ^ 53
  /\ 0 <= Intersection (S754_finite false 6004799503160661 (-54)) 7 5
     <= (7 + 5) / 2.
Proof.
  do 3 (split; [vm_compute; reflexivity|]).
  split; [lia|].
  apply (Intersection_at_most_half
           (S754_finite false 6004799503160661 (-54)) 7 5);
    try (vm_compute; reflexivity); lia.
Defined.
